(** * Neon Snake (src/app/page.tsx): a shallow embedding and its properties

    The page component keeps the game in React state cells (snake, food,
    direction, queuedDirection, gameState, score, highScore, speedLevel) and
    in mutable refs (loopRef, directionRef, queuedRef, gameStateRef,
    scoreRef).  The embedding below keeps both, in one record, and models

    - a handler (key press, button click, interval callback) as a
      computation in a state-and-error monad over that record: a setter
      called with an updater runs the updater on the latest value of its
      cell, side effects of the updater included;
    - the render that follows a handler as [effects], which runs the
      component's effects whose dependencies changed, in their order;
    - the interval as the closure [startLoop] made: its delay and the food
      of the render it was made in;
    - [Math.random] as an oracle of draws, consumed in order.

    Every handler is run to quiescence (render and effects included) before
    the next event is taken, and every state updater runs once.
    Coordinates, scores and delays are integers.  The direction cells hold
    directions and the high score is an integer; [ordinaryRun] describes the
    runs in which the cells of the page hold nothing else. *)

From Stdlib Require Import Ascii.
From stdpp Require Import base numbers list strings pretty gmap.

Open Scope Z_scope.

(** ** Data model (page.tsx, lines 5-22) *)

Record Coordinate := mkCoordinate { x : Z; y : Z }.

Inductive Direction := UP | DOWN | LEFT | RIGHT.

Inductive GameState := idle | running | paused | over.

#[global] Instance Coordinate_eq_dec : EqDecision Coordinate.
Proof. solve_decision. Defined.
#[global] Instance Direction_eq_dec : EqDecision Direction.
Proof. solve_decision. Defined.
#[global] Instance GameState_eq_dec : EqDecision GameState.
Proof. solve_decision. Defined.

Definition BOARD_SIZE : Z := 20.
Definition TICK_BASE : Z := 160.
Definition SPEED_STEP : Z := 6.

Definition INITIAL_SNAKE : list Coordinate :=
  [ mkCoordinate 9 10; mkCoordinate 8 10; mkCoordinate 7 10 ].

(** The template string [`${seg.x}-${seg.y}`]: the two numbers in decimal,
    a dash between them. *)
Definition cellKey (a b : Z) : string := pretty a +:+ "-" +:+ pretty b.

(** ** Math.random

    Draw number [k] of the run is the double
    [(rand k mod RANDOM_DENOM) / RANDOM_DENOM] of [[0, 1)].  Its product
    with [n] is a double again, the exact product rounded to 53 significant
    bits, ties to even: [roundToDouble N] is that rounding of the
    nonnegative integer [N], the numerator over [RANDOM_DENOM].
    [floorRandomTimes r n] is [Math.floor(Math.random() * n)]. *)
Definition RANDOM_DENOM : Z := 2 ^ 53.

Definition roundToDouble (N : Z) : Z :=
  let s := Z.log2 N - 52 in
  if s <=? 0 then N
  else
    let q := N `div` 2 ^ s in
    let r := N `mod` 2 ^ s in
    let half := 2 ^ (s - 1) in
    (if (half <? r) || ((half =? r) && Z.odd q) then q + 1 else q) * 2 ^ s.

Definition floorRandomTimes (r n : Z) : Z :=
  roundToDouble ((r mod RANDOM_DENOM) * n) `div` RANDOM_DENOM.

(** ** Pure helpers (lines 35-55) *)

Definition getNextHead (head : Coordinate) (direction : Direction) : Coordinate :=
  match direction with
  | UP => mkCoordinate (x head) (y head - 1)
  | DOWN => mkCoordinate (x head) (y head + 1)
  | LEFT => mkCoordinate (x head - 1) (y head)
  | RIGHT => mkCoordinate (x head + 1) (y head)
  end.

Definition isOppositeDirection (current next : Direction) : bool :=
  (bool_decide (current = UP) && bool_decide (next = DOWN)) ||
  (bool_decide (current = DOWN) && bool_decide (next = UP)) ||
  (bool_decide (current = LEFT) && bool_decide (next = RIGHT)) ||
  (bool_decide (current = RIGHT) && bool_decide (next = LEFT)).

(** ** randomFoodPosition (lines 24-33)

    [taken] is the set of keys of the forbidden cells.  The do-while loop
    draws a pair and repeats while its key is taken; [fuel] bounds the
    number of iterations of the model, [None] is "still looping".  The
    second component of the result is the number of draws consumed so far. *)
Section RandomFood.
Variable rand : nat -> Z.

Definition takenKeys (forbidden : list Coordinate) : gset string :=
  list_to_set ((λ seg, cellKey (x seg) (y seg)) <$> forbidden).

Fixpoint randomFoodLoop (fuel : nat) (taken : gset string) (k : nat)
  : option (Coordinate * nat) :=
  match fuel with
  | O => None
  | S fuel' =>
      let a := floorRandomTimes (rand k) BOARD_SIZE in
      let b := floorRandomTimes (rand (S k)) BOARD_SIZE in
      if bool_decide (cellKey a b ∈ taken)
      then randomFoodLoop fuel' taken (S (S k))
      else Some (mkCoordinate a b, S (S k))
  end.

Definition randomFoodPosition (fuel : nat) (forbidden : list Coordinate)
    (k : nat) : option (Coordinate * nat) :=
  randomFoodLoop fuel (takenKeys forbidden) k.
End RandomFood.

(** ** The component's state (lines 80-93)

    [loopRef] holds the running interval, if any.  The interval's callback
    is a closure made by [startLoop] in some render: it keeps the
    [tickRate] it was scheduled with and the [food] of that render. *)
Record Interval := mkInterval { delay : Z; seenFood : Coordinate }.

Record Game := mkGame {
  snake : list Coordinate;
  food : Coordinate;
  direction : Direction;
  queuedDirection : Direction;
  gameState : GameState;
  score : Z;
  highScore : Z;
  speedLevel : Z;
  loopRef : option Interval;
  directionRef : Direction;
  queuedRef : Direction;
  gameStateRef : GameState;
  scoreRef : Z;
  (** [window.localStorage["snake-high-score"]], as the integer it spells *)
  storedHighScore : option Z;
  (** number of [Math.random()] calls made so far *)
  draws : nat
}.

#[global] Instance Interval_eq_dec : EqDecision Interval.
Proof. solve_decision. Defined.

Definition set_snake v g :=
  mkGame v (food g) (direction g) (queuedDirection g) (gameState g) (score g)
    (highScore g) (speedLevel g) (loopRef g) (directionRef g) (queuedRef g)
    (gameStateRef g) (scoreRef g) (storedHighScore g) (draws g).
Definition set_food v g :=
  mkGame (snake g) v (direction g) (queuedDirection g) (gameState g) (score g)
    (highScore g) (speedLevel g) (loopRef g) (directionRef g) (queuedRef g)
    (gameStateRef g) (scoreRef g) (storedHighScore g) (draws g).
Definition set_direction v g :=
  mkGame (snake g) (food g) v (queuedDirection g) (gameState g) (score g)
    (highScore g) (speedLevel g) (loopRef g) (directionRef g) (queuedRef g)
    (gameStateRef g) (scoreRef g) (storedHighScore g) (draws g).
Definition set_queuedDirection v g :=
  mkGame (snake g) (food g) (direction g) v (gameState g) (score g)
    (highScore g) (speedLevel g) (loopRef g) (directionRef g) (queuedRef g)
    (gameStateRef g) (scoreRef g) (storedHighScore g) (draws g).
Definition set_gameState v g :=
  mkGame (snake g) (food g) (direction g) (queuedDirection g) v (score g)
    (highScore g) (speedLevel g) (loopRef g) (directionRef g) (queuedRef g)
    (gameStateRef g) (scoreRef g) (storedHighScore g) (draws g).
Definition set_score v g :=
  mkGame (snake g) (food g) (direction g) (queuedDirection g) (gameState g) v
    (highScore g) (speedLevel g) (loopRef g) (directionRef g) (queuedRef g)
    (gameStateRef g) (scoreRef g) (storedHighScore g) (draws g).
Definition set_highScore v g :=
  mkGame (snake g) (food g) (direction g) (queuedDirection g) (gameState g) (score g)
    v (speedLevel g) (loopRef g) (directionRef g) (queuedRef g)
    (gameStateRef g) (scoreRef g) (storedHighScore g) (draws g).
Definition set_speedLevel v g :=
  mkGame (snake g) (food g) (direction g) (queuedDirection g) (gameState g) (score g)
    (highScore g) v (loopRef g) (directionRef g) (queuedRef g)
    (gameStateRef g) (scoreRef g) (storedHighScore g) (draws g).
Definition set_loopRef v g :=
  mkGame (snake g) (food g) (direction g) (queuedDirection g) (gameState g) (score g)
    (highScore g) (speedLevel g) v (directionRef g) (queuedRef g)
    (gameStateRef g) (scoreRef g) (storedHighScore g) (draws g).
Definition set_directionRef v g :=
  mkGame (snake g) (food g) (direction g) (queuedDirection g) (gameState g) (score g)
    (highScore g) (speedLevel g) (loopRef g) v (queuedRef g)
    (gameStateRef g) (scoreRef g) (storedHighScore g) (draws g).
Definition set_queuedRef v g :=
  mkGame (snake g) (food g) (direction g) (queuedDirection g) (gameState g) (score g)
    (highScore g) (speedLevel g) (loopRef g) (directionRef g) v
    (gameStateRef g) (scoreRef g) (storedHighScore g) (draws g).
Definition set_gameStateRef v g :=
  mkGame (snake g) (food g) (direction g) (queuedDirection g) (gameState g) (score g)
    (highScore g) (speedLevel g) (loopRef g) (directionRef g) (queuedRef g)
    v (scoreRef g) (storedHighScore g) (draws g).
Definition set_scoreRef v g :=
  mkGame (snake g) (food g) (direction g) (queuedDirection g) (gameState g) (score g)
    (highScore g) (speedLevel g) (loopRef g) (directionRef g) (queuedRef g)
    (gameStateRef g) v (storedHighScore g) (draws g).
Definition set_storedHighScore v g :=
  mkGame (snake g) (food g) (direction g) (queuedDirection g) (gameState g) (score g)
    (highScore g) (speedLevel g) (loopRef g) (directionRef g) (queuedRef g)
    (gameStateRef g) (scoreRef g) v (draws g).
Definition set_draws v g :=
  mkGame (snake g) (food g) (direction g) (queuedDirection g) (gameState g) (score g)
    (highScore g) (speedLevel g) (loopRef g) (directionRef g) (queuedRef g)
    (gameStateRef g) (scoreRef g) (storedHighScore g) v.

(** ** The handler monad

    A handler reads and writes the cells; it can throw (a [TypeError] on
    [undefined.x]) and the model of a loop can run out of fuel. *)
Inductive outcome (A : Type) :=
  | Done (a : A)
  | TypeError
  | OutOfFuel.
Arguments Done {A} a.
Arguments TypeError {A}.
Arguments OutOfFuel {A}.

Definition M (A : Type) : Type := Game → outcome (A * Game).

#[global] Instance M_ret : MRet M := λ A a g, Done (a, g).
#[global] Instance M_bind : MBind M := λ A B f m g,
  match m g with
  | Done (a, g') => f a g'
  | TypeError => TypeError
  | OutOfFuel => OutOfFuel
  end.

Definition gets {A} (f : Game → A) : M A := λ g, Done (f g, g).
Definition modify (f : Game → Game) : M unit := λ g, Done (tt, f g).
Definition throw {A} : M A := λ _, TypeError.

(** [setX(updater)]: the updater receives the latest value of the cell and
    may itself call setters, as the source's updaters do. *)
Definition setWith {A} (get : Game → A) (set : A → Game → Game)
    (updater : A → M A) : M unit :=
  prev ← gets get; v ← updater prev; modify (set v).

Definition tickRate (speedLevel : Z) : Z :=
  Z.max 60 (TICK_BASE - speedLevel * SPEED_STEP).

(** The key map of [handleKeyDown] (lines 190-199): its eight own keys. *)
Definition keyMap : gmap string Direction :=
  list_to_map
    [ ("ArrowUp", UP); ("KeyW", UP); ("ArrowDown", DOWN); ("KeyS", DOWN);
      ("ArrowLeft", LEFT); ("KeyA", LEFT); ("ArrowRight", RIGHT); ("KeyD", RIGHT) ]%string.

Section Component.
Variable rand : nat → Z.
Variable fuel : nat.

Definition callRandomFoodPosition (forbidden : list Coordinate) : M Coordinate :=
  λ g, match randomFoodPosition rand fuel forbidden (draws g) with
       | Some (c, k) => Done (c, set_draws k g)
       | None => OutOfFuel
       end.

(** useHighScore's [update] (lines 64-74) *)
Definition updateHighScore (sc : Z) : M unit :=
  setWith highScore set_highScore (λ prev,
    if bool_decide (sc > prev) then
      modify (set_storedHighScore (Some sc));; mret sc
    else mret prev).

(** lines 97-109 *)
Definition resetGame : M unit :=
  modify (set_snake INITIAL_SNAKE);;
  newFood ← callRandomFoodPosition INITIAL_SNAKE;
  modify (set_food newFood);;
  modify (set_direction RIGHT);;
  modify (set_queuedDirection RIGHT);;
  modify (set_directionRef RIGHT);;
  modify (set_queuedRef RIGHT);;
  modify (set_scoreRef 0);;
  modify (set_score 0);;
  modify (set_speedLevel 0);;
  modify (set_gameState running).

(** lines 111-116 *)
Definition stopLoop : M unit := modify (set_loopRef None).

(** The callback of [setInterval] (lines 120-159), as made in a render
    whose food was [seenFood iv]. *)
Definition intervalCallback (iv : Interval) : M unit :=
  q ← gets queuedRef; modify (set_directionRef q);;
  setWith snake set_snake (λ prevSnake,
    currentDirection ← gets directionRef;
    head ← match prevSnake with h :: _ => mret h | [] => throw end;
    let nextHead := getNextHead head currentDirection in
    if (x nextHead <? 0) || (y nextHead <? 0) ||
       (x nextHead >=? BOARD_SIZE) || (y nextHead >=? BOARD_SIZE) ||
       existsb (λ segment, (x segment =? x nextHead) && (y segment =? y nextHead))
               prevSnake
    then
      stopLoop;;
      modify (set_gameState over);;
      sr ← gets scoreRef; updateHighScore sr;;
      mret prevSnake
    else
      let hasEaten := (x nextHead =? x (seenFood iv)) && (y nextHead =? y (seenFood iv)) in
      let newSnake := nextHead :: prevSnake in
      let newSnake := if negb hasEaten then removelast newSnake else newSnake in
      (if hasEaten then
         newFood ← callRandomFoodPosition newSnake;
         modify (set_food newFood);;
         setWith score set_score (λ prev,
           let nextScore := prev + 10 in
           modify (set_scoreRef nextScore);; mret nextScore);;
         setWith speedLevel set_speedLevel (λ prev, mret (Z.min (prev + 1) 12))
       else mret tt);;
      mret newSnake).

(** startLoop (lines 118-160) of a render with the given tick rate and food *)
Definition startLoop (rate : Z) (fd : Coordinate) : M unit :=
  stopLoop;; modify (set_loopRef (Some (mkInterval rate fd))).

(** lines 189-231 *)
Definition handleKeyDown (key : string) : M unit :=
  match keyMap !! key with
  | None =>
      if bool_decide (key = "Space"%string) then
        setWith gameState set_gameState (λ state,
          if bool_decide (state = running) then mret paused
          else if bool_decide (state = paused) then mret running
          else if bool_decide (state = idle) || bool_decide (state = over) then
            resetGame;; mret running
          else mret state)
      else mret tt
  | Some nextDirection =>
      setWith queuedDirection set_queuedDirection (λ currentQueued,
        currentDirection ← gets directionRef;
        if isOppositeDirection currentDirection nextDirection then mret currentQueued
        else if bool_decide (currentQueued = nextDirection) then mret currentQueued
        else modify (set_direction nextDirection);; mret nextDirection)
  end.

(** lines 237-251 *)
Definition togglePause : M unit :=
  setWith gameState set_gameState (λ state,
    if bool_decide (state = running) then mret paused
    else if bool_decide (state = paused) then mret running
    else if bool_decide (state = idle) then resetGame;; mret running
    else if bool_decide (state = over) then resetGame;; mret running
    else mret state).

(** lines 253-265 *)
Definition changeDirection (next : Direction) : M unit :=
  setWith queuedDirection set_queuedDirection (λ currentQueued,
    currentDirection ← gets directionRef;
    if isOppositeDirection currentDirection next || bool_decide (currentQueued = next)
    then mret currentQueued
    else modify (set_direction next);; mret next).

(** ** Effects (lines 162-186 and 282-284)

    [effects first before] runs, on the state just rendered, the effects
    whose dependencies differ from those of the render [before] (all of
    them when [first], on mount).  [startLoop] is a new function when
    [food.x], [food.y] or [tickRate] changed. *)
Definition startLoopChanged (before after : Game) : bool :=
  bool_decide (x (food before) ≠ x (food after)) ||
  bool_decide (y (food before) ≠ y (food after)) ||
  bool_decide (tickRate (speedLevel before) ≠ tickRate (speedLevel after)).

Definition effects (first : bool) (before : Game) : M unit := λ after,
  ((if first || bool_decide (gameState before ≠ gameState after) ||
       startLoopChanged before after
    then
      (if first then mret tt else stopLoop);;
      (if bool_decide (gameState after = running)
       then startLoop (tickRate (speedLevel after)) (food after)
       else stopLoop);;
      modify (set_gameStateRef (gameState after))
    else mret tt);;
   (if first || bool_decide (direction before ≠ direction after)
    then modify (set_directionRef (direction after)) else mret tt);;
   (if first || bool_decide (queuedDirection before ≠ queuedDirection after)
    then modify (set_queuedRef (queuedDirection after)) else mret tt);;
   (if first || bool_decide (score before ≠ score after)
    then modify (set_scoreRef (score after)) else mret tt);;
   (if first || bool_decide (score before ≠ score after)
    then updateHighScore (score after) else mret tt)) after.

(** The first render (lines 80-93) and its effects; [stored] is the integer
    the stored item spells, if there is one. *)
Definition mount (stored : option Z) : outcome Game :=
  match randomFoodPosition rand fuel INITIAL_SNAKE 0 with
  | None => OutOfFuel
  | Some (fd, k) =>
      let g :=
        {| snake := INITIAL_SNAKE; food := fd; direction := RIGHT;
           queuedDirection := RIGHT; gameState := idle; score := 0;
           highScore := match stored with Some v => v | None => 0 end;
           speedLevel := 0; loopRef := None; directionRef := RIGHT;
           queuedRef := RIGHT; gameStateRef := idle; scoreRef := 0;
           storedHighScore := stored; draws := k |} in
      match effects true g g with
      | Done (_, g') => Done g'
      | TypeError => TypeError
      | OutOfFuel => OutOfFuel
      end
  end.

(** ** Events *)
Inductive Event :=
  | KeyDown (code : string)
  | ClickPause
  | ClickDirection (next : Direction)
  | IntervalFires (iv : Interval).

Definition handler (e : Event) : M unit :=
  match e with
  | KeyDown code => handleKeyDown code
  | ClickPause => togglePause
  | ClickDirection next => changeDirection next
  | IntervalFires iv => intervalCallback iv
  end.

(** An interval fires only while it is the one scheduled. *)
Definition enabled (e : Event) (g : Game) : Prop :=
  match e with
  | IntervalFires iv => loopRef g = Some iv
  | _ => True
  end.

(** One event: the handler, then the render and its effects. *)
Definition dispatch (e : Event) (g : Game) : outcome Game :=
  match (handler e;; effects false g) g with
  | Done (_, g') => Done g'
  | TypeError => TypeError
  | OutOfFuel => OutOfFuel
  end.
End Component.

(** States of a run with oracle [rand]: the mounted component, then any
    enabled event whose handler returns. *)
Inductive reachable (rand : nat → Z) : Game → Prop :=
  | reach_mount fuel stored g :
      mount rand fuel stored = Done g → reachable rand g
  | reach_event fuel e g g' :
      reachable rand g → enabled e g → dispatch rand fuel e g = Done g' →
      reachable rand g'.

(** ** Scripts: concrete runs of the component

    [Tick] fires the interval that is scheduled, if there is one. *)
Inductive Input :=
  | Press (code : string)
  | TapPause
  | TapDirection (next : Direction)
  | Tick.

Definition eventOf (i : Input) (g : Game) : option Event :=
  match i with
  | Press code => Some (KeyDown code)
  | TapPause => Some ClickPause
  | TapDirection next => Some (ClickDirection next)
  | Tick => IntervalFires <$> loopRef g
  end.

Fixpoint play (rand : nat → Z) (fuel : nat) (inputs : list Input) (g : Game)
  : outcome Game :=
  match inputs with
  | [] => Done g
  | i :: rest =>
      match eventOf i g with
      | None => play rand fuel rest g
      | Some e =>
          match dispatch rand fuel e g with
          | Done g' => play rand fuel rest g'
          | TypeError => TypeError
          | OutOfFuel => OutOfFuel
          end
      end
  end.

Definition session (rand : nat → Z) (fuel : nat) (stored : option Z)
    (inputs : list Input) : outcome Game :=
  match mount rand fuel stored with
  | Done g => play rand fuel inputs g
  | TypeError => TypeError
  | OutOfFuel => OutOfFuel
  end.

(** An oracle whose draws land on the given board indices, in order. *)
Definition oracleOf (cells : list Z) : nat → Z :=
  λ k, (nth k cells 0 * RANDOM_DENOM) `div` BOARD_SIZE + 1.

(** ** Scenarios

    Three oracles and the states some scripts lead to with them. *)

(** Food lands in a corner, out of the way. *)
Definition openFieldOracle : nat → Z := oracleOf [0; 0; 0; 0].

(** The food of the first game lies right ahead of the snake. *)
Definition feedingOracle : nat → Z := oracleOf [0; 0; 10; 10; 5; 5].

(** Twelve meals in a row: ten along the row, two down the last column. *)
Definition twelveMealsOracle : nat → Z :=
  oracleOf [0; 0; 10; 10; 11; 10; 12; 10; 13; 10; 14; 10; 15; 10; 16; 10;
            17; 10; 18; 10; 19; 10; 19; 11; 19; 12; 0; 0].

Definition twelveMeals : list Input :=
  TapPause :: replicate 10 Tick ++ [TapDirection DOWN; Tick; Tick].

(** After mount, with [feedingOracle]. *)
Definition mountedGame : Game :=
  mkGame INITIAL_SNAKE (mkCoordinate 0 0) RIGHT RIGHT idle 0 0 0 None
         RIGHT RIGHT idle 0 None 2.

(** After [TapPause], with [feedingOracle]. *)
Definition startedGame : Game :=
  mkGame INITIAL_SNAKE (mkCoordinate 10 10) RIGHT RIGHT running 0 0 0
         (Some (mkInterval 160 (mkCoordinate 10 10)))
         RIGHT RIGHT running 0 None 4.

(** After [TapPause; Tick; TapPause], with [feedingOracle]: one meal, paused. *)
Definition pausedGame : Game :=
  mkGame [mkCoordinate 10 10; mkCoordinate 9 10; mkCoordinate 8 10; mkCoordinate 7 10]
         (mkCoordinate 5 5) RIGHT RIGHT paused 10 10 1 None
         RIGHT RIGHT paused 10 (Some 10) 6.

(** After [TapPause] and ten ticks, with [openFieldOracle]: head at the wall. *)
Definition wallGame : Game :=
  mkGame [mkCoordinate 19 10; mkCoordinate 18 10; mkCoordinate 17 10]
         (mkCoordinate 0 0) RIGHT RIGHT running 0 0 0
         (Some (mkInterval 160 (mkCoordinate 0 0)))
         RIGHT RIGHT running 0 None 4.

Definition coiling : list Input :=
  [TapPause; Tick; TapDirection DOWN; Tick; TapDirection LEFT; Tick;
   TapDirection UP].

(** After [coiling], with [feedingOracle]: four segments in a square, the
    head heading for the cell of the tail. *)
Definition coiledGame : Game :=
  mkGame [mkCoordinate 9 11; mkCoordinate 10 11; mkCoordinate 10 10; mkCoordinate 9 10]
         (mkCoordinate 5 5) UP UP running 10 10 1
         (Some (mkInterval 154 (mkCoordinate 5 5)))
         UP UP running 10 (Some 10) 6.

(** ** Vocabulary of the statements *)

Definition inBoard (c : Coordinate) : Prop :=
  0 ≤ x c < BOARD_SIZE ∧ 0 ≤ y c < BOARD_SIZE.

(** The cell drawn by the loop iteration that starts at draw [k]. *)
Definition drawnCell (rand : nat → Z) (k : nat) : Coordinate :=
  mkCoordinate (floorRandomTimes (rand k) BOARD_SIZE)
               (floorRandomTimes (rand (S k)) BOARD_SIZE).

Definition fullBoard : list Coordinate :=
  a ← seqZ 0 BOARD_SIZE; b ← seqZ 0 BOARD_SIZE; [mkCoordinate a b].

(** The collision test of the interval callback (lines 127-133). *)
Definition collision (nextHead : Coordinate) (prevSnake : list Coordinate) : bool :=
  (x nextHead <? 0) || (y nextHead <? 0) ||
  (x nextHead >=? BOARD_SIZE) || (y nextHead >=? BOARD_SIZE) ||
  existsb (λ segment, (x segment =? x nextHead) && (y segment =? y nextHead))
          prevSnake.

(** [hasEaten] (line 140). *)
Definition ate (nextHead fd : Coordinate) : bool :=
  (x nextHead =? x fd) && (y nextHead =? y fd).

(** What [updateHighScore] leaves behind. *)
Definition recordHighScore (sc : Z) (g : Game) : Game :=
  if bool_decide (sc > highScore g)
  then set_highScore sc (set_storedHighScore (Some sc) g)
  else set_highScore (highScore g) g.

(** What [resetGame] leaves behind when the food drawn is [fd]. *)
Definition afterReset (fd : Coordinate) (k : nat) (g : Game) : Game :=
  {| snake := INITIAL_SNAKE; food := fd; direction := RIGHT;
     queuedDirection := RIGHT; gameState := running; score := 0;
     highScore := highScore g; speedLevel := 0; loopRef := loopRef g;
     directionRef := RIGHT; queuedRef := RIGHT;
     gameStateRef := gameStateRef g; scoreRef := 0;
     storedHighScore := storedHighScore g; draws := k |}.

(** What [effects] leaves behind. *)
Definition rendered (first : bool) (before g : Game) : Game :=
  let loopDeps := first || bool_decide (gameState before ≠ gameState g) ||
                  startLoopChanged before g in
  let scoreDep := first || bool_decide (score before ≠ score g) in
  {| snake := snake g; food := food g; direction := direction g;
     queuedDirection := queuedDirection g; gameState := gameState g;
     score := score g;
     highScore := if scoreDep && bool_decide (score g > highScore g)
                  then score g else highScore g;
     speedLevel := speedLevel g;
     loopRef := if loopDeps
                then if bool_decide (gameState g = running)
                     then Some (mkInterval (tickRate (speedLevel g)) (food g))
                     else None
                else loopRef g;
     directionRef := if first || bool_decide (direction before ≠ direction g)
                     then direction g else directionRef g;
     queuedRef := if first || bool_decide (queuedDirection before ≠ queuedDirection g)
                  then queuedDirection g else queuedRef g;
     gameStateRef := if loopDeps then gameState g else gameStateRef g;
     scoreRef := if scoreDep then score g else scoreRef g;
     storedHighScore := if scoreDep && bool_decide (score g > highScore g)
                        then Some (score g) else storedHighScore g;
     draws := draws g |}.

(** The invariant of a run. *)
Record Inv (g : Game) : Prop := mkInv {
  inv_nodup : NoDup (snake g);
  inv_food : food g ∉ snake g;
  inv_nonempty : snake g ≠ [];
  inv_board : Forall inBoard (snake g);
  inv_speed : 0 ≤ speedLevel g ≤ 12;
  inv_loop : ∀ iv, loopRef g = Some iv →
             seenFood iv = food g ∧ delay iv = tickRate (speedLevel g) ∧
             gameState g = running;
  inv_heading : direction g = queuedDirection g ∧
                directionRef g = queuedDirection g ∧
                queuedRef g = queuedDirection g
}.

(** ** The page (lines 267-373)

    What the component renders from its cells: the status line, the label
    of the button, and one tile per segment and for the food.  A tile's
    offsets are the percentages of [translate(...)]; for integer
    coordinates the division by [BOARD_SIZE] is exact. *)
Definition statusLabel (gs : GameState) : string :=
  match gs with
  | idle => "Press Space or Tap Start to Play"
  | running => "Game in Progress"
  | paused => "Paused"
  | over => "Game Over"
  end.

Definition buttonLabel (gs : GameState) : string :=
  if bool_decide (gs = running) then "Pause"
  else if bool_decide (gs = paused) then "Resume" else "Start".

Record Tile := mkTile {
  tileKey : option string;
  className : string;
  translateX : Z;
  translateY : Z
}.

Definition snakeTile (index : nat) (segment : Coordinate) : Tile :=
  mkTile
    (Some ("snake-" +:+ pretty (x segment) +:+ "-" +:+ pretty (y segment)
             +:+ "-" +:+ pretty index))
    ("tile " +:+ (if bool_decide (index = 0%nat) then "snake-head" else "snake-segment"))
    ((x segment * 100) `div` BOARD_SIZE)
    ((y segment * 100) `div` BOARD_SIZE).

Definition snakeTiles (snake : list Coordinate) : list Tile := imap snakeTile snake.

Definition foodTile (food : Coordinate) : Tile :=
  mkTile None "tile food"
    ((x food * 100) `div` BOARD_SIZE) ((y food * 100) `div` BOARD_SIZE).

(** ** The states between events

    What every event leaves behind, in terms of the state it found. *)
Definition turned (next : Direction) (g : Game) : Game :=
  set_queuedRef next (set_directionRef next
    (set_queuedDirection next (set_direction next g))).

Definition halted (gs : GameState) (g : Game) : Game :=
  set_loopRef None (set_gameStateRef gs (set_gameState gs g)).

Definition resumed (g : Game) : Game :=
  set_loopRef (Some (mkInterval (tickRate (speedLevel g)) (food g)))
    (set_gameStateRef running (set_gameState running g)).

Definition started (fd : Coordinate) (k : nat) (g : Game) : Game :=
  set_loopRef (Some (mkInterval (tickRate 0) fd))
    (set_gameStateRef running (afterReset fd k g)).

Definition moved (nextHead : Coordinate) (g : Game) : Game :=
  set_snake (nextHead :: removelast (snake g)) g.

Definition fed (nextHead fd : Coordinate) (k : nat) (g : Game) : Game :=
  let level := Z.min (speedLevel g + 1) 12 in
  set_loopRef (Some (mkInterval (tickRate level) fd))
    (set_storedHighScore
       (if bool_decide (score g + 10 > highScore g)
        then Some (score g + 10) else storedHighScore g)
       (set_highScore (Z.max (highScore g) (score g + 10))
          (set_speedLevel level
             (set_scoreRef (score g + 10)
                (set_score (score g + 10)
                   (set_draws k
                      (set_food fd (set_snake (nextHead :: snake g) g)))))))).

Definition adjacent (a b : Coordinate) : Prop :=
  Z.abs (x a - x b) + Z.abs (y a - y b) = 1.

Fixpoint contiguous (l : list Coordinate) : Prop :=
  match l with
  | a :: rest => match rest with b :: _ => adjacent a b | [] => True end ∧
                 contiguous rest
  | [] => True
  end.

(** The refs mirror the cells, the interval is the one of the last render,
    the high score is the persisted one and covers the score. *)
Record Settled (g : Game) : Prop := mkSettled {
  st_direction : direction g = queuedDirection g;
  st_directionRef : directionRef g = queuedDirection g;
  st_queuedRef : queuedRef g = queuedDirection g;
  st_gameStateRef : gameStateRef g = gameState g;
  st_scoreRef : scoreRef g = score g;
  st_loopRef : loopRef g =
               if bool_decide (gameState g = running)
               then Some (mkInterval (tickRate (speedLevel g)) (food g))
               else None;
  st_score : 0 ≤ score g ≤ highScore g;
  st_stored : highScore g = default 0 (storedHighScore g)
}.

(** Score and speed level follow the length of the snake. *)
Record Shape (g : Game) : Prop := mkShape {
  sh_length : (3 ≤ length (snake g))%nat;
  sh_score : score g = 10 * (Z.of_nat (length (snake g)) - 3);
  sh_level : speedLevel g = Z.min (Z.of_nat (length (snake g)) - 3) 12;
  sh_contiguous : contiguous (snake g);
  sh_food : inBoard (food g)
}.

(** What an event does to a state between events. *)
Inductive Step (rand : nat → Z) (fuel : nat) (g : Game) : Event → Game → Prop :=
  | step_ignored e : Step rand fuel g e g
  | step_turn e next :
      isOppositeDirection (queuedDirection g) next = false →
      queuedDirection g ≠ next →
      Step rand fuel g e (turned next g)
  | step_pause e :
      gameState g = running → Step rand fuel g e (halted paused g)
  | step_resume e :
      gameState g = paused → Step rand fuel g e (resumed g)
  | step_start e fd k :
      gameState g = idle ∨ gameState g = over →
      randomFoodPosition rand fuel INITIAL_SNAKE (draws g) = Some (fd, k) →
      Step rand fuel g e (started fd k g)
  | step_crash iv hd tl :
      gameState g = running → snake g = hd :: tl →
      collision (getNextHead hd (queuedDirection g)) (snake g) = true →
      Step rand fuel g (IntervalFires iv) (halted over g)
  | step_eat iv hd tl fd k :
      gameState g = running → snake g = hd :: tl →
      collision (getNextHead hd (queuedDirection g)) (snake g) = false →
      getNextHead hd (queuedDirection g) = food g →
      randomFoodPosition rand fuel (getNextHead hd (queuedDirection g) :: snake g)
        (draws g) = Some (fd, k) →
      Step rand fuel g (IntervalFires iv)
        (fed (getNextHead hd (queuedDirection g)) fd k g)
  | step_move iv hd tl :
      gameState g = running → snake g = hd :: tl →
      collision (getNextHead hd (queuedDirection g)) (snake g) = false →
      getNextHead hd (queuedDirection g) ≠ food g →
      Step rand fuel g (IntervalFires iv)
        (moved (getNextHead hd (queuedDirection g)) g).

(** ** What the cells can hold

    The direction cells of the embedding hold directions and its high
    score is an integer.  The page can be brought to hold other values in
    two ways, and the runs in which that happens are outside [ordinaryRun].

    - Line 202 tests [key in keyMap], which holds of the eight keys of the
      literal and of the names the literal inherits from [Object.prototype];
      for an inherited name lines 219-229 store the inherited member in the
      direction cells.  [keyMap] above has the eight own keys only: [keyIn]
      is the test of line 202, and a [keyboardEvent] carries a code that is
      no inherited name, as the codes of a keyboard are.
    - Line 61 reads the stored item with [Number.parseInt].  The page
      itself stores the decimal numeral of a score ([String(score)], line
      68), and [Number.parseInt] reads the numeral of a safe integer back
      exactly: [storedHighScore] stands for such an item ([numeral]). *)
Definition objectPrototypeNames : list string :=
  [ "constructor"; "hasOwnProperty"; "isPrototypeOf"; "propertyIsEnumerable";
    "toLocaleString"; "toString"; "valueOf"; "__proto__";
    "__defineGetter__"; "__defineSetter__"; "__lookupGetter__";
    "__lookupSetter__" ]%string.

Definition keyIn (key : string) : bool :=
  bool_decide (is_Some (keyMap !! key)) ||
  bool_decide (key ∈ objectPrototypeNames).

Definition keyboardEvent (e : Event) : Prop :=
  match e with
  | KeyDown code => code ∉ objectPrototypeNames
  | _ => True
  end.

Definition keyboardInput (i : Input) : Prop :=
  match i with
  | Press code => code ∉ objectPrototypeNames
  | _ => True
  end.

(** [Number.isSafeInteger] *)
Definition safeInteger (v : Z) : Prop := - 2 ^ 53 < v < 2 ^ 53.

Definition numeral (stored : option Z) : Prop :=
  match stored with
  | Some v => safeInteger v
  | None => True
  end.

(** States of a run that is mounted on a storage holding nothing or the
    numeral of a safe integer and that takes keyboard events only. *)
Inductive ordinaryRun (rand : nat → Z) : Game → Prop :=
  | ordinary_mount fuel stored g :
      numeral stored → mount rand fuel stored = Done g → ordinaryRun rand g
  | ordinary_event fuel e g g' :
      ordinaryRun rand g → enabled e g → keyboardEvent e →
      dispatch rand fuel e g = Done g' → ordinaryRun rand g'.

(** ** A game that fills the board

    A tour of the board from the head of the initial snake, as legs of a
    heading and a number of steps: it visits every cell off the initial
    snake once.  [tourOracle] drops each new food on the next cell of the
    tour, and [tourInputs] steers the snake along it, up to the last step. *)
Definition tour : list (Direction * nat) :=
  [ (RIGHT, 10); (DOWN, 1); (LEFT, 18); (DOWN, 1); (RIGHT, 18); (DOWN, 1);
    (LEFT, 18); (DOWN, 1); (RIGHT, 18); (DOWN, 1); (LEFT, 18); (DOWN, 1);
    (RIGHT, 18); (DOWN, 1); (LEFT, 18); (DOWN, 1); (RIGHT, 18); (DOWN, 1);
    (LEFT, 19); (UP, 9); (RIGHT, 6); (UP, 1); (LEFT, 6); (UP, 9);
    (RIGHT, 1); (DOWN, 8); (RIGHT, 1); (UP, 8); (RIGHT, 1); (DOWN, 8);
    (RIGHT, 1); (UP, 8); (RIGHT, 1); (DOWN, 8); (RIGHT, 1); (UP, 8);
    (RIGHT, 1); (DOWN, 9); (RIGHT, 1); (UP, 9); (RIGHT, 1); (DOWN, 9);
    (RIGHT, 1); (UP, 9); (RIGHT, 1); (DOWN, 9); (RIGHT, 1); (UP, 9);
    (RIGHT, 1); (DOWN, 9); (RIGHT, 1); (UP, 9); (RIGHT, 1); (DOWN, 9);
    (RIGHT, 1); (UP, 9); (RIGHT, 1); (DOWN, 9); (RIGHT, 1); (UP, 9);
    (RIGHT, 1); (DOWN, 9) ]%nat.

Definition headings (legs : list (Direction * nat)) : list Direction :=
  '(d, n) ← legs; replicate n d.

Fixpoint walk (c : Coordinate) (ds : list Direction) : list Coordinate :=
  match ds with
  | [] => []
  | d :: ds => getNextHead c d :: walk (getNextHead c d) ds
  end.

Definition tourCells : list Coordinate :=
  walk (mkCoordinate 9 10) (headings tour).

Definition tourOracle : nat → Z :=
  oracleOf (0 :: 0 :: (c ← tourCells; [x c; y c])).

(** Before every tick, a tap on the heading of the tour. *)
Definition steering (ds : list Direction) : list Input :=
  d ← ds; [TapDirection d; Tick].

Definition tourInputs : list Input :=
  TapPause :: steering (removelast (headings tour)).

(** After [tourInputs], with [tourOracle]: 396 meals, 399 segments, and the
    food on the one cell that is left, right ahead of the head. *)
Definition crowdedGame : Game :=
  mkGame (reverse (removelast tourCells) ++ INITIAL_SNAKE)
         (mkCoordinate 19 9) DOWN DOWN running 3960 3960 12
         (Some (mkInterval 88 (mkCoordinate 19 9)))
         DOWN DOWN running 3960 (Some 3960) 796.

(** A tap on [d] and a tick that eats and finds the new food with its first
    draws, in closed form; [None] if the tap and the tick would do anything
    else. *)
Definition meal (rand : nat → Z) (d : Direction) (g : Game) : option Game :=
  match snake g with
  | [] => None
  | hd :: _ =>
      let nextHead := getNextHead hd d in
      let fd := drawnCell rand (draws g) in
      if bool_decide (gameState g = running) &&
         negb (isOppositeDirection (queuedDirection g) d) &&
         negb (collision nextHead (snake g)) && ate nextHead (food g) &&
         negb (collision fd (nextHead :: snake g))
      then Some (fed nextHead fd (S (S (draws g)))
                   (if bool_decide (queuedDirection g = d) then g
                    else turned d g))
      else None
  end.

Fixpoint meals (rand : nat → Z) (ds : list Direction) (g : Game) : option Game :=
  match ds with
  | [] => Some g
  | d :: ds => match meal rand d g with
               | Some g' => meals rand ds g'
               | None => None
               end
  end.

(** ** Keys of cells are injective *)

Definition dashFree (s : string) : Prop := ∀ s1 s2, s ≠ s1 +:+ "-" +:+ s2.

Lemma app_String c s t : String c s +:+ t = String c (s +:+ t).
Proof. reflexivity. Qed.

Lemma app_empty t : "" +:+ t = t.
Proof. reflexivity. Qed.

Ltac push_app := rewrite ?app_String, ?app_empty in *.

Lemma dashFree_String c s : c ≠ "-"%char → dashFree s → dashFree (String c s).
Proof.
  intros Hc Hs [|c1 s1] s2; push_app; intros [= ]; [congruence|].
  subst. by eapply Hs.
Qed.

Lemma pretty_N_go_dashFree n s : dashFree s → dashFree (pretty_N_go n s).
Proof.
  revert s. induction (N.lt_wf_0 n) as [n _ IH]; intros s Hs.
  assert (n = 0 ∨ 0 < n)%N as [->|?] by lia.
  - by rewrite pretty_N_go_0.
  - rewrite pretty_N_go_step by done. apply IH.
    { by apply N.div_lt. }
    apply dashFree_String; [|done].
    unfold pretty_N_char. by repeat case_match.
Qed.

Lemma dashFree_empty : dashFree "".
Proof. intros [|c1 s1] s2; push_app; discriminate. Qed.

Lemma pretty_N_dashFree (n : N) : dashFree (pretty n).
Proof.
  unfold pretty, pretty_N. case_decide.
  - apply dashFree_String; [done|apply dashFree_empty].
  - apply pretty_N_go_dashFree, dashFree_empty.
Qed.

Lemma pretty_N_go_nonempty n s : s ≠ "" → pretty_N_go n s ≠ "".
Proof.
  revert s. induction (N.lt_wf_0 n) as [n _ IH]; intros s Hs.
  assert (n = 0 ∨ 0 < n)%N as [->|?] by lia.
  - by rewrite pretty_N_go_0.
  - rewrite pretty_N_go_step by done. apply IH; [by apply N.div_lt|done].
Qed.

Lemma pretty_pos_head (p : positive) :
  ∃ c s, pretty p = String c s ∧ c ≠ "-"%char.
Proof.
  destruct (pretty p) as [|c s] eqn:E.
  - exfalso. revert E. unfold pretty, pretty_positive, pretty, pretty_N.
    case_decide; [done|]. rewrite pretty_N_go_step by lia.
    by apply pretty_N_go_nonempty.
  - exists c, s. split; [done|]. intros ->.
    apply (pretty_N_dashFree (Npos p) "" s). by push_app.
Qed.

(** Splitting at the first dash is unambiguous. *)
Lemma dash_split s1 s2 t1 t2 :
  dashFree s1 → dashFree s2 →
  s1 +:+ "-" +:+ t1 = s2 +:+ "-" +:+ t2 → s1 = s2 ∧ t1 = t2.
Proof.
  revert s2. induction s1 as [|c s1 IH]; intros [|d s2] H1 H2; push_app.
  - by intros [= ->].
  - intros [= <- E]. destruct (H2 "" s2). by push_app.
  - intros [= -> E]. destruct (H1 "" s1). by push_app.
  - intros [= -> E]. apply IH in E as [-> ->]; [done| |].
    + intros u1 u2 ->. apply (H1 (String d u1) u2). by push_app.
    + intros u1 u2 ->. apply (H2 (String d u1) u2). by push_app.
Qed.

Lemma pretty_Z_shape (a : Z) :
  (dashFree (pretty a) ∧ ∃ c s, pretty a = String c s ∧ c ≠ "-"%char) ∨
  (∃ p : positive, pretty a = String "-" (pretty p)).
Proof.
  destruct a as [|p|p].
  - left. split; [apply (pretty_N_dashFree 0)|]. by exists "0"%char, "".
  - left. split; [apply (pretty_N_dashFree (Npos p))|apply pretty_pos_head].
  - right. by exists p.
Qed.

Lemma cellKey_inj a b a' b' : cellKey a b = cellKey a' b' → a = a' ∧ b = b'.
Proof.
  unfold cellKey. intros E.
  assert (pretty a = pretty a' ∧ pretty b = pretty b') as [Ha Hb].
  { destruct (pretty_Z_shape a) as [[Fa (c & s & Ea & Hc)]|[p Ea]],
      (pretty_Z_shape a') as [[Fa' (c' & s' & Ea' & Hc')]|[p' Ea']].
    - by apply dash_split in E.
    - rewrite Ea, Ea' in E. push_app. congruence.
    - rewrite Ea, Ea' in E. push_app. congruence.
    - rewrite Ea, Ea' in E |- *. push_app. injection E as E.
      apply dash_split in E as [-> ->]; [done|apply (pretty_N_dashFree (Npos _))..]. }
  split; by apply (inj pretty).
Qed.

(** ** Food placement *)

(** Rounding a product below 2^58 to 53 bits moves it by at most 16. *)
Lemma roundToDouble_near N :
  0 ≤ N < 2 ^ 58 → 0 ≤ roundToDouble N ≤ N + 16.
Proof.
  intros [H0 H58]. unfold roundToDouble. cbv zeta.
  destruct (Z.leb_spec (Z.log2 N - 52) 0) as [|Hs]; [lia|].
  assert (Z.log2 N < 58) as Hlog.
  { apply Z.log2_lt_pow2; [|done]. destruct (decide (N = 0)) as [->|]; [|lia].
    by vm_compute in Hs. }
  set (s := Z.log2 N - 52) in *.
  assert (s = 1 ∨ s = 2 ∨ s = 3 ∨ s = 4 ∨ s = 5) as Hcase by lia.
  clearbody s.
  destruct Hcase as [->|[->|[->|[->| ->]]]]; cbn [Z.sub Z.pow Z.opp Z.add];
    match goal with
    | |- context [N `div` ?p] =>
        pose proof (Z.div_mod N p ltac:(done));
        pose proof (Z.mod_pos_bound N p ltac:(done))
    end;
    match goal with
    | |- context [?h <? ?r] =>
        destruct (Z.ltb_spec h r); [|destruct (Z.eqb_spec h r)]
    end;
    cbn [orb andb]; try destruct (Z.odd _); lia.
Qed.

Lemma floorRandomTimes_range r : 0 ≤ floorRandomTimes r BOARD_SIZE < BOARD_SIZE.
Proof.
  unfold floorRandomTimes, BOARD_SIZE, RANDOM_DENOM.
  pose proof (Z.mod_pos_bound r (2 ^ 53) ltac:(lia)) as Hm.
  pose proof (roundToDouble_near (r `mod` 2 ^ 53 * 20) ltac:(lia)) as Hn.
  split.
  - apply Z.div_pos; lia.
  - apply Z.div_lt_upper_bound; [done|]. lia.
Qed.

Lemma drawnCell_inBoard rand k : inBoard (drawnCell rand k).
Proof. split; apply floorRandomTimes_range. Qed.

Lemma takenKeys_elem a b forbidden :
  cellKey a b ∈ takenKeys forbidden ↔ mkCoordinate a b ∈ forbidden.
Proof.
  unfold takenKeys. rewrite elem_of_list_to_set, list_elem_of_fmap. split.
  - intros ([a' b'] & E & Hin). simpl in E.
    apply cellKey_inj in E as [-> ->]. done.
  - intros Hin. by exists (mkCoordinate a b).
Qed.

Lemma fullBoard_elem c : c ∈ fullBoard ↔ inBoard c.
Proof.
  unfold fullBoard, inBoard. rewrite list_elem_of_bind. split.
  - intros (a & Hc & Ha). apply list_elem_of_bind in Hc as (b & Hc & Hb).
    apply list_elem_of_singleton in Hc as ->. simpl.
    apply elem_of_seqZ in Ha, Hb. unfold BOARD_SIZE in *. lia.
  - unfold BOARD_SIZE. intros [Ha Hb]. exists (x c). split; [|apply elem_of_seqZ; lia].
    apply list_elem_of_bind. exists (y c). split; [|apply elem_of_seqZ; lia].
    destruct c. apply list_elem_of_singleton. done.
Qed.

Section RandomFoodFacts.
Variable rand : nat → Z.

Lemma randomFoodLoop_first_free fuel taken k c k' :
  randomFoodLoop rand fuel taken k = Some (c, k') →
  ∃ i : nat, (i < fuel)%nat ∧ c = drawnCell rand (k + 2 * i) ∧
             k' = (k + 2 * i + 2)%nat ∧
             cellKey (x c) (y c) ∉ taken.
Proof.
  revert k c k'. induction fuel as [|fuel IH]; intros k c k'; [done|].
  cbn [randomFoodLoop]. case_bool_decide as Hk.
  - intros (i & Hi & Hc & Hk' & Hfree)%IH. exists (S i).
    split_and!; [lia|rewrite Hc; f_equal; lia|lia|done].
  - intros [= <- <-]. exists 0%nat.
    replace (k + 2 * 0)%nat with k by lia.
    split_and!; [lia|done|lia|done].
Qed.

Lemma randomFoodLoop_finds fuel taken k i :
  (i < fuel)%nat →
  cellKey (x (drawnCell rand (k + 2 * i))) (y (drawnCell rand (k + 2 * i))) ∉ taken →
  is_Some (randomFoodLoop rand fuel taken k).
Proof.
  revert k i. induction fuel as [|fuel IH]; intros k i Hi Hfree; [lia|].
  simpl. case_bool_decide as Hk; [|done].
  destruct i as [|i].
  - replace (k + 2 * 0)%nat with k in Hfree by lia. done.
  - apply (IH _ i); [lia|].
    by replace (S (S k) + 2 * i)%nat with (k + 2 * S i)%nat by lia.
Qed.

Lemma randomFoodLoop_stuck fuel taken k :
  (∀ c, inBoard c → cellKey (x c) (y c) ∈ taken) →
  randomFoodLoop rand fuel taken k = None.
Proof.
  intros Hfull. revert k. induction fuel as [|fuel IH]; intros k; simpl; [done|].
  rewrite bool_decide_eq_true_2; [apply IH|].
  apply (Hfull (drawnCell rand k)), drawnCell_inBoard.
Qed.

Lemma randomFoodPosition_sound fuel forbidden k c k' :
  randomFoodPosition rand fuel forbidden k = Some (c, k') →
  (c ∉ forbidden) ∧ inBoard c.
Proof.
  intros (i & _ & -> & _ & Hfree)%randomFoodLoop_first_free.
  split; [|apply drawnCell_inBoard].
  intros Hin. apply Hfree, takenKeys_elem. by destruct (drawnCell _ _).
Qed.
Lemma drawnCell_key forbidden k :
  cellKey (x (drawnCell rand k)) (y (drawnCell rand k)) ∈ takenKeys forbidden ↔
  drawnCell rand k ∈ forbidden.
Proof. rewrite takenKeys_elem. by destruct (drawnCell rand k). Qed.

(** The loop returns the first pair of draws whose key is not taken. *)
Lemma randomFoodLoop_Some fuel taken k c k' :
  randomFoodLoop rand fuel taken k = Some (c, k') ↔
  ∃ i : nat, (i < fuel)%nat ∧ c = drawnCell rand (k + 2 * i) ∧
             k' = (k + 2 * i + 2)%nat ∧
             (cellKey (x c) (y c) ∉ taken) ∧
             ∀ j : nat, (j < i)%nat →
               cellKey (x (drawnCell rand (k + 2 * j)))
                       (y (drawnCell rand (k + 2 * j))) ∈ taken.
Proof.
  revert k. induction fuel as [|fuel IH]; intros k.
  { split; [done|]. intros (i & ? & _). lia. }
  cbn [randomFoodLoop].
  change (cellKey (floorRandomTimes (rand k) BOARD_SIZE)
                  (floorRandomTimes (rand (S k)) BOARD_SIZE))
    with (cellKey (x (drawnCell rand k)) (y (drawnCell rand k))).
  change (mkCoordinate (floorRandomTimes (rand k) BOARD_SIZE)
                       (floorRandomTimes (rand (S k)) BOARD_SIZE))
    with (drawnCell rand k).
  case_bool_decide as Hk.
  - rewrite IH. split.
    + intros (i & Hi & -> & -> & Hfree & Hearlier). exists (S i).
      replace (k + 2 * S i)%nat with (S (S k) + 2 * i)%nat by lia.
      split_and!; [lia|done|lia|done|].
      intros [|j] Hj.
      * by replace (k + 2 * 0)%nat with k by lia.
      * replace (k + 2 * S j)%nat with (S (S k) + 2 * j)%nat by lia.
        apply Hearlier. lia.
    + intros ([|i] & Hi & -> & -> & Hfree & Hearlier).
      * exfalso. by replace (k + 2 * 0)%nat with k in Hfree by lia.
      * exists i. replace (S (S k) + 2 * i)%nat with (k + 2 * S i)%nat by lia.
        split_and!; [lia|done|lia|done|].
        intros j Hj.
        replace (S (S k) + 2 * j)%nat with (k + 2 * S j)%nat by lia.
        apply Hearlier. lia.
  - split.
    + intros [= <- <-]. exists 0%nat.
      replace (k + 2 * 0)%nat with k by lia.
      split_and!; [lia|done|lia|done|]. intros j Hj. lia.
    + intros ([|i] & Hi & -> & -> & Hfree & Hearlier).
      * replace (k + 2 * 0)%nat with k by lia. do 2 f_equal. lia.
      * exfalso. apply Hk. specialize (Hearlier 0%nat ltac:(lia)).
        by replace (k + 2 * 0)%nat with k in Hearlier by lia.
Qed.

(** It is still looping exactly while every key drawn was taken. *)
Lemma randomFoodLoop_None fuel taken k :
  randomFoodLoop rand fuel taken k = None ↔
  ∀ i : nat, (i < fuel)%nat →
    cellKey (x (drawnCell rand (k + 2 * i))) (y (drawnCell rand (k + 2 * i))) ∈ taken.
Proof.
  revert k. induction fuel as [|fuel IH]; intros k.
  { split; [intros _ i Hi; lia|done]. }
  cbn [randomFoodLoop].
  change (cellKey (floorRandomTimes (rand k) BOARD_SIZE)
                  (floorRandomTimes (rand (S k)) BOARD_SIZE))
    with (cellKey (x (drawnCell rand k)) (y (drawnCell rand k))).
  case_bool_decide as Hk.
  - rewrite IH. split.
    + intros H [|i] Hi.
      * by replace (k + 2 * 0)%nat with k by lia.
      * replace (k + 2 * S i)%nat with (S (S k) + 2 * i)%nat by lia.
        apply H. lia.
    + intros H i Hi.
      replace (S (S k) + 2 * i)%nat with (k + 2 * S i)%nat by lia.
      apply H. lia.
  - split; [done|]. intros H. exfalso. apply Hk.
    specialize (H 0%nat ltac:(lia)).
    by replace (k + 2 * 0)%nat with k in H by lia.
Qed.

Lemma randomFoodPosition_Some fuel forbidden k c k' :
  randomFoodPosition rand fuel forbidden k = Some (c, k') ↔
  ∃ i : nat, (i < fuel)%nat ∧ c = drawnCell rand (k + 2 * i) ∧
             k' = (k + 2 * i + 2)%nat ∧ (c ∉ forbidden) ∧
             ∀ j : nat, (j < i)%nat → drawnCell rand (k + 2 * j) ∈ forbidden.
Proof.
  unfold randomFoodPosition. rewrite randomFoodLoop_Some.
  split; intros (i & Hi & -> & -> & Hfree & Hearlier); exists i;
    (split_and!; [done..| |]).
  - by rewrite <-drawnCell_key.
  - intros j Hj. by apply drawnCell_key, Hearlier.
  - by rewrite drawnCell_key.
  - intros j Hj. by apply drawnCell_key, Hearlier.
Qed.

Lemma randomFoodPosition_None fuel forbidden k :
  randomFoodPosition rand fuel forbidden k = None ↔
  ∀ i : nat, (i < fuel)%nat → drawnCell rand (k + 2 * i) ∈ forbidden.
Proof.
  unfold randomFoodPosition. rewrite randomFoodLoop_None.
  split; intros H i Hi; by apply drawnCell_key, H.
Qed.

Lemma randomFoodPosition_first fuel forbidden k :
  drawnCell rand k ∉ forbidden →
  randomFoodPosition rand (S fuel) forbidden k = Some (drawnCell rand k, S (S k)).
Proof.
  intros Hfree. apply randomFoodPosition_Some. exists 0%nat.
  replace (k + 2 * 0)%nat with k by lia.
  split_and!; [lia|done|lia|done|]. intros j Hj. lia.
Qed.
End RandomFoodFacts.

(** ** Room on the board *)

Example fullBoard_cells : length fullBoard = 400%nat.
Proof. reflexivity. Qed.

Lemma fullBoard_NoDup : NoDup fullBoard.
Proof. apply (bool_decide_unpack _). vm_compute. exact I. Qed.

(** Fewer than 400 cells leave a cell of the board free. *)
Lemma board_has_room (l : list Coordinate) :
  (length l < 400)%nat → ∃ c, inBoard c ∧ c ∉ l.
Proof.
  intros Hlen. destruct (decide (Forall (λ c, c ∈ l) fullBoard)) as [Hall|Hn].
  - exfalso. assert (length fullBoard ≤ length l)%nat as Hle.
    { apply submseteq_length, NoDup_submseteq; [apply fullBoard_NoDup|].
      by apply Forall_forall. }
    rewrite fullBoard_cells in Hle. lia.
  - apply not_Forall_Exists in Hn; [|apply _].
    apply Exists_exists in Hn as (c & Hc%fullBoard_elem & Hfree). by exists c.
Qed.

(** 400 distinct cells of the board are the whole board. *)
Lemma board_is_full (l : list Coordinate) :
  NoDup l → Forall inBoard l → length l = 400%nat → ∀ c, inBoard c → c ∈ l.
Proof.
  intros Hnd Hin Hlen c Hc.
  assert (l ≡ₚ fullBoard) as ->; [|by apply fullBoard_elem].
  apply submseteq_length_Permutation.
  - apply NoDup_submseteq; [done|]. intros a Ha. apply fullBoard_elem.
    by apply (proj1 (Forall_forall _ _) Hin).
  - rewrite fullBoard_cells. lia.
Qed.

(** ** Handlers, flattened

    Each handler is a total function of the state once the draws are
    known; the equations below give its result in direct style. *)

Ltac unfold_monad :=
  cbv beta iota delta
    [setWith gets modify throw startLoop stopLoop mbind M_bind mret M_ret].

Ltac cells :=
  cbn [snake food direction queuedDirection gameState score highScore
       speedLevel loopRef directionRef queuedRef gameStateRef scoreRef
       storedHighScore draws
       set_snake set_food set_direction set_queuedDirection set_gameState
       set_score set_highScore set_speedLevel set_loopRef set_directionRef
       set_queuedRef set_gameStateRef set_scoreRef set_storedHighScore
       set_draws] in *.

Section HandlerEquations.
Variable rand : nat → Z.
Variable fuel : nat.

Lemma updateHighScore_eq sc g :
  updateHighScore sc g = Done (tt, recordHighScore sc g).
Proof.
  unfold updateHighScore, recordHighScore. unfold_monad.
  by destruct (bool_decide (sc > highScore g)).
Qed.

Lemma effects_eq first before g :
  effects first before g = Done (tt, rendered first before g).
Proof.
  destruct g as [sn fd d qd gs sc hs sl lr dr qr gsr scr st dw].
  unfold effects, rendered, updateHighScore. cells.
  destruct (first || bool_decide (gameState before ≠ gs) || _),
    (first || bool_decide (direction before ≠ d)),
    (first || bool_decide (queuedDirection before ≠ qd)),
    (first || bool_decide (score before ≠ sc)),
    (bool_decide (gs = running)), first;
    unfold_monad; cells; destruct (bool_decide (sc > hs)); reflexivity.
Qed.

Lemma intervalCallback_eq iv g :
  intervalCallback rand fuel iv g =
  match snake g with
  | [] => TypeError
  | head :: _ =>
      let g0 := set_directionRef (queuedRef g) g in
      let nextHead := getNextHead head (queuedRef g) in
      if collision nextHead (snake g) then
        Done (tt, set_snake (snake g)
                    (recordHighScore (scoreRef g)
                       (set_gameState over (set_loopRef None g0))))
      else if ate nextHead (seenFood iv) then
        match randomFoodPosition rand fuel (nextHead :: snake g) (draws g) with
        | None => OutOfFuel
        | Some (fd, k) =>
            Done (tt, set_snake (nextHead :: snake g)
                        (set_speedLevel (Z.min (speedLevel g + 1) 12)
                           (set_score (score g + 10)
                              (set_scoreRef (score g + 10)
                                 (set_food fd (set_draws k g0))))))
        end
      else Done (tt, set_snake (removelast (nextHead :: snake g)) g0)
  end.
Proof.
  destruct g as [sn fd d qd gs sc hs sl lr dr qr gsr scr st dw].
  unfold intervalCallback.
  destruct sn as [|hd tl]; [reflexivity|].
  cbn [snake queuedRef]. cbv zeta.
  set (nh := getNextHead hd qr).
  destruct (collision nh (hd :: tl)) eqn:Ec; unfold collision in Ec;
    unfold_monad;
    cbn [snake set_directionRef directionRef queuedRef]; fold nh; rewrite Ec.
  - unfold updateHighScore, recordHighScore. unfold_monad.
    cbn -[Z.gt]. destruct (bool_decide _); reflexivity.
  - destruct (ate nh (seenFood iv)) eqn:Ea; unfold ate in Ea; rewrite Ea;
      [|reflexivity].
    cbn [negb]. unfold callRandomFoodPosition. cbn [draws].
    destruct (randomFoodPosition _ _ _ _) as [[c k]|]; reflexivity.
Qed.

Lemma changeDirection_eq next g :
  changeDirection next g =
  Done (tt, if isOppositeDirection (directionRef g) next ||
               bool_decide (queuedDirection g = next)
            then g
            else set_queuedDirection next (set_direction next g)).
Proof.
  destruct g as [sn fd d qd gs sc hs sl lr dr qr gsr scr st dw].
  unfold changeDirection. unfold_monad.
  cbn [directionRef queuedDirection].
  by destruct (isOppositeDirection dr next || bool_decide (qd = next)).
Qed.

Lemma handleKeyDown_direction key next g :
  keyMap !! key = Some next →
  handleKeyDown rand fuel key g = changeDirection next g.
Proof.
  intros Hkey. unfold handleKeyDown. rewrite Hkey.
  unfold changeDirection. unfold_monad.
  destruct (isOppositeDirection (directionRef g) next); [done|].
  by destruct (bool_decide (queuedDirection g = next)).
Qed.

Lemma togglePause_eq g :
  togglePause rand fuel g =
  match gameState g with
  | running => Done (tt, set_gameState paused g)
  | paused => Done (tt, set_gameState running g)
  | idle | over =>
      match randomFoodPosition rand fuel INITIAL_SNAKE (draws g) with
      | None => OutOfFuel
      | Some (fd, k) => Done (tt, afterReset fd k g)
      end
  end.
Proof.
  destruct g as [sn fd d qd gs sc hs sl lr dr qr gsr scr st dw].
  unfold togglePause, resetGame, callRandomFoodPosition. unfold_monad.
  cells.
  destruct gs; repeat (case_bool_decide; try congruence); cells;
    try reflexivity;
    destruct (randomFoodPosition _ _ _ _) as [[c k]|]; reflexivity.
Qed.

Lemma handleKeyDown_space g :
  handleKeyDown rand fuel "Space" g = togglePause rand fuel g.
Proof.
  unfold handleKeyDown, togglePause. unfold_monad.
  replace (keyMap !! "Space"%string) with (@None Direction)
    by (vm_compute; reflexivity).
  rewrite bool_decide_eq_true_2 by done.
  destruct (gameState g) eqn:E;
    repeat (case_bool_decide; try congruence); reflexivity.
Qed.

Lemma handleKeyDown_other key g :
  keyMap !! key = None → key ≠ "Space"%string →
  handleKeyDown rand fuel key g = Done (tt, g).
Proof.
  intros Hkey Hne. unfold handleKeyDown. rewrite Hkey.
  by rewrite bool_decide_eq_false_2.
Qed.

Lemma dispatch_eq e g :
  dispatch rand fuel e g =
  match handler rand fuel e g with
  | Done (_, g1) => Done (rendered false g g1)
  | TypeError => TypeError
  | OutOfFuel => OutOfFuel
  end.
Proof.
  unfold dispatch. unfold mbind at 1. unfold M_bind.
  destruct (handler rand fuel e g) as [[[] g1]| |]; [|done..].
  by rewrite effects_eq.
Qed.
End HandlerEquations.

(** ** Vocabulary lemmas *)

Lemma existsb_cell nh (s : list Coordinate) :
  existsb (λ segment, (x segment =? x nh) && (y segment =? y nh)) s = true ↔ nh ∈ s.
Proof.
  rewrite existsb_exists. split.
  - intros (c & Hc%list_elem_of_In & [Hx%Z.eqb_eq Hy%Z.eqb_eq]%andb_true_iff).
    destruct c, nh; simpl in *; by subst.
  - intros Hin. exists nh. split; [by apply list_elem_of_In|].
    by rewrite !Z.eqb_refl.
Qed.

Lemma collision_true nh s : collision nh s = true ↔ ¬ inBoard nh ∨ nh ∈ s.
Proof.
  unfold collision, inBoard, BOARD_SIZE.
  rewrite !orb_true_iff, existsb_cell, !Z.ltb_lt, !Z.geb_le. split.
  - intros [[[[?|?]|?]|?]|?]; [left; lia..|by right].
  - intros [Hout|?]; [|by right]. left.
    destruct (decide (x nh < 0)), (decide (y nh < 0)), (decide (20 ≤ x nh));
      try (by auto). right. lia.
Qed.

Lemma collision_false nh s : collision nh s = false ↔ inBoard nh ∧ nh ∉ s.
Proof.
  rewrite <-not_true_iff_false, collision_true. split.
  - intros Hn. split; [|by intros ?; apply Hn; right].
    destruct (decide (inBoard nh)) as [|Hd]; [done|]. destruct Hn. by left.
  - intros [Hb Hs] [?|?]; done.
Qed.

Lemma ate_true nh fd : ate nh fd = true ↔ nh = fd.
Proof.
  unfold ate. rewrite andb_true_iff, !Z.eqb_eq. split.
  - destruct nh, fd; simpl; by intros [-> ->].
  - by intros ->.
Qed.

Lemma ate_false nh fd : ate nh fd = false ↔ nh ≠ fd.
Proof. by rewrite <-not_true_iff_false, ate_true. Qed.

Lemma removelast_cons {A} (a : A) l : l ≠ [] → removelast (a :: l) = a :: removelast l.
Proof. by destruct l. Qed.

Lemma removelast_elem {A} (a : A) l : a ∈ removelast l → a ∈ l.
Proof.
  induction l as [|b l IH]; [done|]. destruct l as [|c l].
  - simpl. by intros ?%elem_of_nil.
  - rewrite removelast_cons by done.
    intros [->|Hin]%elem_of_cons; [left|right; by apply IH].
Qed.

Lemma removelast_NoDup {A} (l : list A) : NoDup l → NoDup (removelast l).
Proof.
  induction 1 as [|b l Hb Hl IH]; [constructor|]. destruct l as [|c l].
  - constructor.
  - rewrite removelast_cons by done. constructor; [|done].
    intros Hin. by apply Hb, removelast_elem.
Qed.

Lemma removelast_Forall {A} (P : A → Prop) l : Forall P l → Forall P (removelast l).
Proof.
  rewrite !Forall_forall. intros H a Ha. by apply H, removelast_elem.
Qed.

Lemma removelast_length_cons {A} (a : A) l :
  l ≠ [] → length (removelast (a :: l)) = length l.
Proof.
  revert a. induction l as [|b l IH]; intros a Hne; [done|].
  rewrite removelast_cons by done. destruct l as [|c l]; [done|].
  cbn [length]. f_equal. by apply IH.
Qed.

Lemma recordHighScore_highScore sc g :
  highScore (recordHighScore sc g) = Z.max (highScore g) sc.
Proof. unfold recordHighScore. case_bool_decide; cells; lia. Qed.

(** ** Scripts stay inside the reachable states *)

Lemma play_reachable rand fuel inputs g g' :
  reachable rand g → play rand fuel inputs g = Done g' → reachable rand g'.
Proof.
  revert g. induction inputs as [|i rest IH]; intros g Hg; simpl.
  - by intros [= <-].
  - destruct (eventOf i g) as [e|] eqn:Ee; [|by apply IH].
    destruct (dispatch rand fuel e g) as [g1| |] eqn:Ed; [|done..].
    apply IH. apply (reach_event rand fuel e g g1 Hg); [|done].
    destruct i; simpl in Ee; try (by injection Ee as <-).
    destruct (loopRef g) as [iv|] eqn:El; simpl in Ee; [|done].
    injection Ee as <-. exact El.
Qed.

Lemma session_reachable rand fuel stored inputs g :
  session rand fuel stored inputs = Done g → reachable rand g.
Proof.
  unfold session. destruct (mount rand fuel stored) as [g0| |] eqn:Em; [|done..].
  apply play_reachable. by eapply reach_mount.
Qed.

(** ** The invariant is kept by every render *)

Lemma startLoopChanged_false before after :
  startLoopChanged before after = false →
  food before = food after ∧
  tickRate (speedLevel before) = tickRate (speedLevel after).
Proof.
  unfold startLoopChanged. intros H.
  apply orb_false_iff in H as [H Ht]. apply orb_false_iff in H as [Hx Hy].
  apply bool_decide_eq_false in Hx, Hy, Ht.
  destruct (food before) as [a b], (food after) as [a' b']; simpl in *.
  split; [f_equal|]; by apply dec_stable.
Qed.

Lemma rendered_Inv before g1 :
  NoDup (snake g1) → food g1 ∉ snake g1 → snake g1 ≠ [] →
  Forall inBoard (snake g1) → 0 ≤ speedLevel g1 ≤ 12 →
  (∀ iv, loopRef g1 = Some iv →
         seenFood iv = food before ∧ delay iv = tickRate (speedLevel before) ∧
         gameState before = running) →
  direction g1 = queuedDirection g1 →
  (direction before ≠ direction g1 ∨ directionRef g1 = direction g1) →
  (queuedDirection before ≠ queuedDirection g1 ∨ queuedRef g1 = queuedDirection g1) →
  Inv (rendered false before g1).
Proof.
  intros Hnd Hfood Hne Hb Hsp Hloop Hdq Hdr Hqr.
  constructor; unfold rendered; cells; try done.
  - intros iv. rewrite !orb_false_l.
    destruct (bool_decide (gameState before ≠ gameState g1) || _) eqn:E.
    + clear E. case_bool_decide as Hrun; intros Heq; [|discriminate].
      injection Heq as <-. by cbn.
    + apply orb_false_iff in E as [Hgs [Hf Ht]%startLoopChanged_false].
      apply bool_decide_eq_false in Hgs. apply dec_stable in Hgs.
      intros (? & ? & ?)%Hloop. split_and!; congruence.
  - rewrite !orb_false_l. split_and!; [done|..].
    + case_bool_decide; [done|]. destruct Hdr; [done|congruence].
    + case_bool_decide; [done|]. by destruct Hqr.
Qed.

Lemma INITIAL_SNAKE_NoDup : NoDup INITIAL_SNAKE.
Proof. by apply (bool_decide_unpack _). Qed.

Lemma INITIAL_SNAKE_inBoard : Forall inBoard INITIAL_SNAKE.
Proof. unfold INITIAL_SNAKE, inBoard, BOARD_SIZE. repeat constructor; simpl; lia. Qed.

Ltac inv_side :=
  try first [ done | lia | (right; congruence) | (left; congruence) ].

Section Invariant.
Variable rand : nat → Z.

Lemma mount_Inv fuel stored g : mount rand fuel stored = Done g → Inv g.
Proof.
  unfold mount.
  destruct (randomFoodPosition rand fuel INITIAL_SNAKE 0) as [[fd k]|] eqn:Ef;
    [|done].
  rewrite effects_eq. intros [= <-].
  apply randomFoodPosition_sound in Ef as [Hfree Hin].
  constructor; unfold rendered; cells; try done.
  - apply INITIAL_SNAKE_NoDup.
  - apply INITIAL_SNAKE_inBoard.
Qed.

Lemma reset_Inv g fd k :
  Inv g → gameState g ≠ running → fd ∉ INITIAL_SNAKE →
  Inv (rendered false g (afterReset fd k g)).
Proof.
  intros [Hnd Hfood Hne Hb Hsp Hloop (Hd & Hdr & Hqr)] Hnr Hfree.
  apply rendered_Inv; unfold afterReset; cells.
  - apply INITIAL_SNAKE_NoDup.
  - done.
  - done.
  - apply INITIAL_SNAKE_inBoard.
  - lia.
  - done.
  - done.
  - by right.
  - by right.
Qed.

Lemma dispatch_Inv fuel e g g' :
  Inv g → enabled e g → dispatch rand fuel e g = Done g' → Inv g'.
Proof.
  intros HI Hen.
  pose proof HI as [Hnd Hfood Hne Hb Hsp Hloop (Hd & Hdr & Hqr)].
  rewrite dispatch_eq.
  assert (∀ g1, g1 = g ∨ (∃ gs, g1 = set_gameState gs g) →
                Inv (rendered false g g1)) as Hsame.
  { intros g1 [->|[gs ->]]; apply rendered_Inv; cells; auto; right; congruence. }
  assert (∀ next, Inv (rendered false g
            (if isOppositeDirection (directionRef g) next ||
                bool_decide (queuedDirection g = next)
             then g else set_queuedDirection next (set_direction next g))))
    as Hturn.
  { intros next.
    destruct (isOppositeDirection _ _ || bool_decide _) eqn:E; [by auto|].
    apply orb_false_iff in E as [_ Hq%bool_decide_eq_false].
    apply rendered_Inv; cells; auto; left; congruence. }
  assert (∀ o, match togglePause rand fuel g with
               | Done (_, g1) => Done (rendered false g g1)
               | TypeError => TypeError
               | OutOfFuel => OutOfFuel
               end = Done o → Inv o) as Hpause.
  { intros o. rewrite togglePause_eq.
    destruct (gameState g) eqn:Egs.
    - destruct (randomFoodPosition _ _ _ _) as [[fd k]|] eqn:Ef; [|done].
      intros [= <-]. apply randomFoodPosition_sound in Ef as [Hfree _].
      apply reset_Inv; [done|congruence|done].
    - intros [= <-]. apply Hsame. right. by eexists.
    - intros [= <-]. apply Hsame. right. by eexists.
    - destruct (randomFoodPosition _ _ _ _) as [[fd k]|] eqn:Ef; [|done].
      intros [= <-]. apply randomFoodPosition_sound in Ef as [Hfree _].
      apply reset_Inv; [done|congruence|done]. }
  destruct e as [code| |next|iv]; simpl handler.
  - destruct (keyMap !! code) as [next|] eqn:Ek.
    + rewrite (handleKeyDown_direction _ _ _ _ _ Ek), changeDirection_eq.
      intros [= <-]. apply Hturn.
    + destruct (decide (code = "Space"%string)) as [->|Hns].
      * rewrite handleKeyDown_space. apply Hpause.
      * rewrite handleKeyDown_other by done. intros [= <-]. apply Hsame. by left.
  - apply Hpause.
  - rewrite changeDirection_eq. intros [= <-]. apply Hturn.
  - simpl in Hen. destruct (Hloop _ Hen) as (Hseen & _ & _).
    rewrite intervalCallback_eq.
    destruct (snake g) as [|hd tl] eqn:Es; [done|]. cbv zeta.
    set (nh := getNextHead hd (queuedRef g)).
    destruct (collision nh (hd :: tl)) eqn:Ec.
    { intros [= <-]. apply rendered_Inv; unfold recordHighScore;
        try case_bool_decide; cells; rewrite ?Es; auto; inv_side. }
    apply collision_false in Ec as [Hnb Hns].
    destruct (ate nh (seenFood iv)) eqn:Ea.
    + destruct (randomFoodPosition _ _ _ _) as [[fd k]|] eqn:Ef; [|done].
      intros [= <-].
      apply randomFoodPosition_sound in Ef as [Hfree Hin].
      apply rendered_Inv; cells; rewrite ?Es; auto; inv_side.
    + apply ate_false in Ea. intros [= <-].
      change (Inv (rendered false g
                (set_snake (nh :: removelast (hd :: tl))
                   (set_directionRef (queuedRef g) g)))).
      apply rendered_Inv; cells; rewrite ?Es; auto; inv_side.
      * constructor; [|by apply removelast_NoDup].
        by intros Hin%removelast_elem.
      * intros [E|Hin%removelast_elem]%elem_of_cons; [congruence|done].
      * constructor; [done|]. by apply removelast_Forall.
Qed.

Lemma reachable_Inv g : reachable rand g → Inv g.
Proof.
  induction 1 as [fuel stored g Hm|fuel e g g' _ IH Hen Hd].
  - by eapply mount_Inv.
  - by eapply dispatch_Inv.
Qed.
End Invariant.

(** ** Scenario states are reached *)

Lemma mountedGame_reached : session feedingOracle 1 None [] = Done mountedGame.
Proof. vm_compute. reflexivity. Qed.

Lemma startedGame_reached : session feedingOracle 1 None [TapPause] = Done startedGame.
Proof. vm_compute. reflexivity. Qed.

Lemma pausedGame_reached :
  session feedingOracle 1 None [TapPause; Tick; TapPause] = Done pausedGame.
Proof. vm_compute. reflexivity. Qed.

Lemma wallGame_reached :
  session openFieldOracle 1 None (TapPause :: replicate 10 Tick) = Done wallGame.
Proof. vm_compute. reflexivity. Qed.

Lemma coiledGame_reached : session feedingOracle 1 None coiling = Done coiledGame.
Proof. vm_compute. reflexivity. Qed.

(** ** The tick *)

Section Tick.
Variable rand : nat → Z.
Variable fuel : nat.

Lemma tick_collision iv g hd tl :
  snake g = hd :: tl →
  collision (getNextHead hd (queuedRef g)) (snake g) = true →
  ∃ g', dispatch rand fuel (IntervalFires iv) g = Done g' ∧
        snake g' = snake g ∧ food g' = food g ∧ score g' = score g ∧
        speedLevel g' = speedLevel g ∧ draws g' = draws g ∧
        gameState g' = over ∧ loopRef g' = None ∧
        highScore g' = Z.max (highScore g) (scoreRef g).
Proof.
  intros Hs Hc. rewrite dispatch_eq. simpl handler.
  rewrite intervalCallback_eq. rewrite Hs in Hc |- *. cbv zeta. rewrite Hc.
  eexists. split; [reflexivity|].
  unfold rendered, recordHighScore.
  case_bool_decide as Hhs; cells; rewrite ?Hs; split_and!; try done.
  - by destruct (_ || _).
  - rewrite bool_decide_eq_false_2 by (by intros ?). simpl. lia.
  - by destruct (_ || _).
  - rewrite bool_decide_eq_false_2 by (by intros ?). simpl. lia.
Qed.
End Tick.

(** C4: a tick whose next head is off the board or on a segment of the
    snake as it is before the move is a collision, whatever the food: the
    snake, the food and the score stay as they are, no new food is drawn,
    the interval is cleared, the game is over and the high score has been
    compared with the score. *)
Theorem collision_ends_the_game rand fuel iv g hd tl :
  snake g = hd :: tl →
  (¬ inBoard (getNextHead hd (queuedRef g)) ∨
   getNextHead hd (queuedRef g) ∈ snake g) →
  ∃ g', dispatch rand fuel (IntervalFires iv) g = Done g' ∧
        snake g' = snake g ∧ food g' = food g ∧ score g' = score g ∧
        speedLevel g' = speedLevel g ∧ draws g' = draws g ∧
        gameState g' = over ∧ loopRef g' = None ∧
        highScore g' = Z.max (highScore g) (scoreRef g).
Proof.
  intros Hs Hc. apply (tick_collision rand fuel iv g hd tl Hs).
  by apply collision_true.
Qed.

Lemma collision_ends_the_game_witness :
  ∃ g', dispatch openFieldOracle 1
          (IntervalFires (mkInterval 160 (mkCoordinate 0 0))) wallGame = Done g' ∧
        snake g' = snake wallGame ∧ food g' = food wallGame ∧
        score g' = score wallGame ∧ speedLevel g' = speedLevel wallGame ∧
        draws g' = draws wallGame ∧ gameState g' = over ∧ loopRef g' = None ∧
        highScore g' = Z.max (highScore wallGame) (scoreRef wallGame).
Proof.
  apply (collision_ends_the_game openFieldOracle 1 _ wallGame
           (mkCoordinate 19 10) [mkCoordinate 18 10; mkCoordinate 17 10]).
  - reflexivity.
  - left. unfold inBoard, BOARD_SIZE. simpl. lia.
Defined.

(** C5: the collision test looks at the whole snake as it is before the
    move, tail included: a tick whose next head is the cell of the tail is a
    collision, not a move. *)
Theorem moving_onto_own_tail_collides rand fuel iv g hd tl :
  snake g = hd :: tl →
  last (snake g) = Some (getNextHead hd (queuedRef g)) →
  ∃ g', dispatch rand fuel (IntervalFires iv) g = Done g' ∧
        gameState g' = over ∧ snake g' = snake g ∧ loopRef g' = None.
Proof.
  intros Hs Hl.
  destruct (tick_collision rand fuel iv g hd tl Hs) as (g' & Hd & H).
  - apply collision_true. right.
    apply last_Some in Hl as [l' ->].
    rewrite elem_of_app, list_elem_of_singleton. by right.
  - exists g'. destruct H as (? & _ & _ & _ & _ & ? & ? & _). by split_and!.
Qed.

Lemma moving_onto_own_tail_collides_witness :
  ∃ g', dispatch feedingOracle 1
          (IntervalFires (mkInterval 154 (mkCoordinate 5 5))) coiledGame = Done g' ∧
        gameState g' = over ∧ snake g' = snake coiledGame ∧ loopRef g' = None.
Proof.
  apply (moving_onto_own_tail_collides feedingOracle 1 _ coiledGame
           (mkCoordinate 9 11)
           [mkCoordinate 10 11; mkCoordinate 10 10; mkCoordinate 9 10]).
  - reflexivity.
  - reflexivity.
Defined.

(** ** Ticks without collision *)

Lemma randomFoodPosition_finds rand fuel forbidden k i :
  (i < fuel)%nat → drawnCell rand (k + 2 * i) ∉ forbidden →
  is_Some (randomFoodPosition rand fuel forbidden k).
Proof.
  intros Hi Hfree. apply (randomFoodLoop_finds rand fuel _ k i Hi).
  rewrite takenKeys_elem. by destruct (drawnCell _ _).
Qed.

Lemma tick_eat rand fuel iv g hd tl fd k :
  snake g = hd :: tl →
  collision (getNextHead hd (queuedRef g)) (snake g) = false →
  ate (getNextHead hd (queuedRef g)) (seenFood iv) = true →
  randomFoodPosition rand fuel (getNextHead hd (queuedRef g) :: snake g) (draws g)
    = Some (fd, k) →
  ∃ g', dispatch rand fuel (IntervalFires iv) g = Done g' ∧
        snake g' = getNextHead hd (queuedRef g) :: snake g ∧ food g' = fd ∧
        score g' = score g + 10 ∧
        speedLevel g' = Z.min (speedLevel g + 1) 12 ∧
        gameState g' = gameState g.
Proof.
  intros Hs Hc Ha Hf. rewrite dispatch_eq. simpl handler.
  rewrite intervalCallback_eq. rewrite Hs in Hc, Hf |- *. cbv zeta.
  rewrite Hc, Ha, Hf. eexists. split; [reflexivity|].
  unfold rendered. by cells.
Qed.

Lemma tick_move rand fuel iv g hd tl :
  snake g = hd :: tl →
  collision (getNextHead hd (queuedRef g)) (snake g) = false →
  ate (getNextHead hd (queuedRef g)) (seenFood iv) = false →
  ∃ g', dispatch rand fuel (IntervalFires iv) g = Done g' ∧
        snake g' = getNextHead hd (queuedRef g) :: removelast (snake g) ∧
        food g' = food g ∧ score g' = score g ∧
        speedLevel g' = speedLevel g ∧ gameState g' = gameState g.
Proof.
  intros Hs Hc Ha. rewrite dispatch_eq. simpl handler.
  rewrite intervalCallback_eq. rewrite Hs in Hc |- *. cbv zeta.
  rewrite Hc, Ha. eexists. split; [reflexivity|].
  unfold rendered. cells. by rewrite removelast_cons.
Qed.

Lemma tick_hungry rand fuel iv g hd tl :
  snake g = hd :: tl →
  collision (getNextHead hd (queuedRef g)) (snake g) = false →
  ate (getNextHead hd (queuedRef g)) (seenFood iv) = true →
  randomFoodPosition rand fuel (getNextHead hd (queuedRef g) :: snake g) (draws g)
    = None →
  dispatch rand fuel (IntervalFires iv) g = OutOfFuel.
Proof.
  intros Hs Hc Ha Hf. rewrite dispatch_eq. simpl handler.
  rewrite intervalCallback_eq. rewrite Hs in Hc, Hf |- *. cbv zeta.
  by rewrite Hc, Ha, Hf.
Qed.

(** C6, as the code has it: on a tick of a running game that does not
    collide, if the next head is the food cell the tick first draws the new
    food off the grown snake.  Once a draw is free the new snake is the old
    one with the next head in front (one segment longer, no tail dropped),
    the score is 10 higher and the speed level one higher, except at 12
    where it stays; while every draw lands on the grown snake the tick has
    not returned.  A snake of fewer than 399 segments leaves a free cell to
    draw; with 399 segments the grown snake fills the board and the tick
    does not return, whatever the draws.  If the next head is not the food
    cell the snake keeps its length. *)
Theorem eating_grows_by_one rand fuel iv g hd tl :
  reachable rand g → loopRef g = Some iv → snake g = hd :: tl →
  inBoard (getNextHead hd (queuedRef g)) →
  getNextHead hd (queuedRef g) ∉ snake g →
  (getNextHead hd (queuedRef g) = food g →
   ((∃ i, (i < fuel)%nat ∧
          drawnCell rand (draws g + 2 * i) ∉ getNextHead hd (queuedRef g) :: snake g) →
    ∃ g', dispatch rand fuel (IntervalFires iv) g = Done g' ∧
          snake g' = getNextHead hd (queuedRef g) :: snake g ∧
          length (snake g') = S (length (snake g)) ∧
          score g' = score g + 10 ∧
          speedLevel g' = (if bool_decide (speedLevel g = 12) then 12
                           else speedLevel g + 1)) ∧
   ((∀ i, (i < fuel)%nat →
          drawnCell rand (draws g + 2 * i) ∈ getNextHead hd (queuedRef g) :: snake g) →
    dispatch rand fuel (IntervalFires iv) g = OutOfFuel) ∧
   ((length (snake g) < 399)%nat ∨ length (snake g) = 399%nat) ∧
   ((length (snake g) < 399)%nat →
    ∃ c, inBoard c ∧ c ∉ getNextHead hd (queuedRef g) :: snake g) ∧
   (length (snake g) = 399%nat →
    dispatch rand fuel (IntervalFires iv) g = OutOfFuel)) ∧
  (getNextHead hd (queuedRef g) ≠ food g →
   ∃ g', dispatch rand fuel (IntervalFires iv) g = Done g' ∧
         snake g' = getNextHead hd (queuedRef g) :: removelast (snake g) ∧
         length (snake g') = length (snake g) ∧
         score g' = score g ∧ speedLevel g' = speedLevel g).
Proof.
  intros Hr Hl Hs Hin Hfree.
  destruct (reachable_Inv rand g Hr) as [Hnd _ _ Hb Hsp Hloop _].
  destruct (Hloop iv Hl) as (Hseen & _ & _).
  assert (collision (getNextHead hd (queuedRef g)) (snake g) = false) as Hc
    by by apply collision_false.
  assert (NoDup (getNextHead hd (queuedRef g) :: snake g)) as Hnd'
    by by constructor.
  assert (Forall inBoard (getNextHead hd (queuedRef g) :: snake g)) as Hb'
    by by constructor.
  assert (length (getNextHead hd (queuedRef g) :: snake g) ≤ 400)%nat as Hlen.
  { rewrite <-fullBoard_cells. apply submseteq_length, NoDup_submseteq; [done|].
    intros c Hc'. apply fullBoard_elem.
    by apply (proj1 (Forall_forall _ _) Hb'). }
  cbn [length] in Hlen.
  split.
  - intros Heat.
    assert (ate (getNextHead hd (queuedRef g)) (seenFood iv) = true) as Ha
      by (apply ate_true; congruence).
    split_and!.
    + intros (i & Hi & Hdraw).
      destruct (randomFoodPosition_finds rand fuel _ _ i Hi Hdraw) as [[fd k] Hf].
      destruct (tick_eat rand fuel iv g hd tl fd k Hs Hc Ha Hf)
        as (g' & Hd & Hsn & _ & Hsc & Hlv & _).
      exists g'. split_and!; [done..| |done|].
      * by rewrite Hsn.
      * rewrite Hlv. case_bool_decide; lia.
    + intros Hall. apply (tick_hungry rand fuel iv g hd tl Hs Hc Ha).
      by apply randomFoodPosition_None.
    + lia.
    + intros Hsmall. apply board_has_room. cbn [length]. lia.
    + intros Hfull. apply (tick_hungry rand fuel iv g hd tl Hs Hc Ha).
      apply randomFoodPosition_None. intros i _.
      apply board_is_full; [done..|cbn [length]; lia|apply drawnCell_inBoard].
  - intros Hne.
    destruct (tick_move rand fuel iv g hd tl Hs Hc) as (g' & Hd & Hsn & _ & Hsc & Hlv & _);
      [apply ate_false; congruence|].
    exists g'. split_and!; [done..| |done|done].
    rewrite Hsn, Hs, <-removelast_cons by done.
    by rewrite removelast_length_cons.
Qed.

Lemma eating_grows_by_one_witness :
  ∃ g', dispatch feedingOracle 1
          (IntervalFires (mkInterval 160 (mkCoordinate 10 10))) startedGame = Done g' ∧
        snake g' = mkCoordinate 10 10 :: snake startedGame ∧
        length (snake g') = S (length (snake startedGame)) ∧
        score g' = score startedGame + 10 ∧
        speedLevel g' = (if bool_decide (speedLevel startedGame = 12) then 12
                         else speedLevel startedGame + 1).
Proof.
  refine (proj1 (proj1 (eating_grows_by_one feedingOracle 1
                          (mkInterval 160 (mkCoordinate 10 10)) startedGame
                          (mkCoordinate 9 10) [mkCoordinate 8 10; mkCoordinate 7 10]
                          _ _ _ _ _) _) _).
  - apply (session_reachable _ 1 None [TapPause]). vm_compute. reflexivity.
  - reflexivity.
  - reflexivity.
  - unfold inBoard, BOARD_SIZE. simpl. lia.
  - apply (bool_decide_unpack _). vm_compute. exact I.
  - reflexivity.
  - exists 0%nat. split; [lia|].
    apply (bool_decide_unpack _). vm_compute. exact I.
Defined.

(** C7: in every state of a run - after mount and after every event, the
    ticks that eat included - the food is on no segment of the snake. *)
Theorem food_never_on_snake rand g : reachable rand g → food g ∉ snake g.
Proof. intros Hr. by destruct (reachable_Inv rand g Hr). Qed.

Lemma food_never_on_snake_witness : food pausedGame ∉ snake pausedGame.
Proof.
  apply (food_never_on_snake feedingOracle pausedGame).
  apply (session_reachable _ 1 None [TapPause; Tick; TapPause]).
  vm_compute. reflexivity.
Defined.

Lemma remove_dups_NoDup_id {A} `{EqDecision A} (l : list A) :
  NoDup l → remove_dups l = l.
Proof.
  induction 1 as [|a l Ha Hl IH]; [done|]. simpl.
  destruct (decide_rel _ a l); [done|]. by rewrite IH.
Qed.

(** C8: in every state of a run no two segments of the snake share a cell:
    the snake has as many segments as distinct cells; and the snake a tick
    leaves behind is again without duplicates. *)
Theorem snake_segments_distinct rand g :
  reachable rand g →
  NoDup (snake g) ∧
  length (remove_dups (snake g)) = length (snake g) ∧
  ∀ fuel iv g', loopRef g = Some iv →
                dispatch rand fuel (IntervalFires iv) g = Done g' →
                NoDup (snake g') ∧
                length (remove_dups (snake g')) = length (snake g').
Proof.
  intros Hr. pose proof (reachable_Inv rand g Hr) as HI.
  split_and!.
  - apply HI.
  - rewrite remove_dups_NoDup_id; [done|apply HI].
  - intros fuel iv g' Hl Hd.
    assert (Inv g') as HI' by by eapply (dispatch_Inv rand fuel (IntervalFires iv)).
    split; [apply HI'|]. rewrite remove_dups_NoDup_id; [done|apply HI'].
Qed.

Lemma snake_segments_distinct_witness :
  NoDup (snake coiledGame) ∧
  length (remove_dups (snake coiledGame)) = length (snake coiledGame) ∧
  ∀ fuel iv g', loopRef coiledGame = Some iv →
                dispatch feedingOracle fuel (IntervalFires iv) coiledGame = Done g' →
                NoDup (snake g') ∧
                length (remove_dups (snake g')) = length (snake g').
Proof.
  apply (snake_segments_distinct feedingOracle coiledGame).
  apply (session_reachable _ 1 None coiling). vm_compute. reflexivity.
Defined.

(** C9: the tick interval of speed level [L] is [max(60, 160 - L * 6)], never
    below 60 and equal to 60 from level 17 on; in a run the level stays
    within 0..12, so the interval stays within 88..160, the scheduled
    interval has exactly that delay, and a run with twelve meals does
    reach 88. *)
Theorem tick_interval_bounds :
  (∀ L, tickRate L = Z.max 60 (160 - L * 6) ∧ 60 ≤ tickRate L ∧
        (17 ≤ L → tickRate L = 60)) ∧
  (∀ rand g, reachable rand g →
             0 ≤ speedLevel g ≤ 12 ∧ 88 ≤ tickRate (speedLevel g) ≤ 160 ∧
             ∀ iv, loopRef g = Some iv → delay iv = tickRate (speedLevel g)) ∧
  tickRate 12 = 88 ∧
  (∃ rand g iv, reachable rand g ∧ speedLevel g = 12 ∧
                loopRef g = Some iv ∧ delay iv = 88).
Proof.
  split_and!.
  - intros L. unfold tickRate, TICK_BASE, SPEED_STEP. lia.
  - intros rand g Hr. destruct (reachable_Inv rand g Hr) as [_ _ _ _ Hsp Hloop _].
    split_and!; [lia|lia|unfold tickRate, TICK_BASE, SPEED_STEP; lia..|].
    intros iv Hl. by destruct (Hloop iv Hl) as (_ & ? & _).
  - reflexivity.
  - assert (∃ g, session twelveMealsOracle 1 None twelveMeals = Done g ∧
                 speedLevel g = 12 ∧
                 loopRef g = Some (mkInterval 88 (mkCoordinate 0 0)))
      as (g & Hg & Hsp & Hl).
    { vm_compute. eexists. split_and!; reflexivity. }
    exists twelveMealsOracle, g, (mkInterval 88 (mkCoordinate 0 0)).
    split_and!; [by eapply session_reachable|done..].
Qed.

Lemma tick_interval_bounds_witness :
  0 ≤ speedLevel pausedGame ≤ 12 ∧
  88 ≤ tickRate (speedLevel pausedGame) ≤ 160 ∧
  ∀ iv, loopRef pausedGame = Some iv → delay iv = tickRate (speedLevel pausedGame).
Proof.
  apply (proj1 (proj2 tick_interval_bounds) feedingOracle pausedGame).
  apply (session_reachable _ 1 None [TapPause; Tick; TapPause]).
  vm_compute. reflexivity.
Defined.

(** ** Food placement: what the loop does *)

Lemma oracleOf_lands (c : Z) (cells : list Z) n :
  0 ≤ c < BOARD_SIZE → nth n cells 0 = c →
  floorRandomTimes (oracleOf cells n) BOARD_SIZE = c.
Proof.
  unfold oracleOf, BOARD_SIZE. intros Hc ->.
  assert (c ∈ seqZ 0 20) as Hin by (apply elem_of_seqZ; lia).
  clear Hc. revert c Hin. apply Forall_forall.
  apply (bool_decide_unpack _). vm_compute. exact I.
Qed.

(** The product is rounded as a double: the draw just below 19/20 lands on
    index 19, where the exact product would land on 18. *)
Example floorRandomTimes_rounds :
  floorRandomTimes 8556839292003942 BOARD_SIZE = 19 ∧
  (8556839292003942 * BOARD_SIZE) `div` RANDOM_DENOM = 18.
Proof. split; reflexivity. Qed.

(** C2, as the code has it: the loop has no full-board exit.  Whatever it
    returns is the first drawn cell that is not forbidden, a board cell:
    every cell drawn before it is forbidden; it returns that cell as soon as
    a draw is free, and for every free board cell there are draws that make
    it return that cell; it is still looping exactly while every cell drawn
    was forbidden, and when the forbidden cells cover the board it is still
    looping after any number of iterations. *)
Theorem randomFoodPosition_rejection_sampling rand forbidden k :
  (∀ fuel c k', randomFoodPosition rand fuel forbidden k = Some (c, k') →
     (c ∉ forbidden) ∧ inBoard c ∧
     ∃ i : nat, (i < fuel)%nat ∧ c = drawnCell rand (k + 2 * i) ∧
                k' = (k + 2 * i + 2)%nat ∧
                ∀ j : nat, (j < i)%nat → drawnCell rand (k + 2 * j) ∈ forbidden) ∧
  (∀ i fuel, (i < fuel)%nat → drawnCell rand (k + 2 * i) ∉ forbidden →
     is_Some (randomFoodPosition rand fuel forbidden k)) ∧
  (∀ c, inBoard c → c ∉ forbidden →
     randomFoodPosition (oracleOf [x c; y c]) 1 forbidden 0 = Some (c, 2%nat)) ∧
  ((∀ c, inBoard c → c ∈ forbidden) →
     ∀ fuel, randomFoodPosition rand fuel forbidden k = None) ∧
  (∀ i fuel, (i < fuel)%nat → drawnCell rand (k + 2 * i) ∉ forbidden →
     (∀ j : nat, (j < i)%nat → drawnCell rand (k + 2 * j) ∈ forbidden) →
     randomFoodPosition rand fuel forbidden k =
       Some (drawnCell rand (k + 2 * i), (k + 2 * i + 2)%nat)) ∧
  (∀ fuel, randomFoodPosition rand fuel forbidden k = None ↔
           ∀ i : nat, (i < fuel)%nat → drawnCell rand (k + 2 * i) ∈ forbidden).
Proof.
  split_and!.
  - intros fuel c k' Hret. split_and!; [by eapply randomFoodPosition_sound..|].
    apply randomFoodPosition_Some in Hret as (i & ? & ? & ? & _ & ?). by exists i.
  - intros i fuel. apply randomFoodPosition_finds.
  - intros [a b] [Ha Hb] Hfree. unfold randomFoodPosition. cbn [randomFoodLoop x y].
    rewrite (oracleOf_lands a [a; b] 0), (oracleOf_lands b [a; b] 1) by done.
    rewrite bool_decide_eq_false_2; [done|]. by rewrite takenKeys_elem.
  - intros Hfull fuel. apply randomFoodLoop_stuck.
    intros [a b] Hc. by apply takenKeys_elem, Hfull.
  - intros i fuel Hi Hfree Hearlier. apply randomFoodPosition_Some. by exists i.
  - intros fuel. apply randomFoodPosition_None.
Qed.

Lemma randomFoodPosition_rejection_sampling_witness :
  is_Some (randomFoodPosition feedingOracle 1 INITIAL_SNAKE 0) ∧
  (∀ fuel, randomFoodPosition feedingOracle fuel fullBoard 0 = None).
Proof.
  split.
  - apply (proj1 (proj2 (randomFoodPosition_rejection_sampling
                           feedingOracle INITIAL_SNAKE 0)) 0%nat 1%nat).
    + lia.
    + apply (bool_decide_unpack _). vm_compute. exact I.
  - apply (proj1 (proj2 (proj2 (proj2 (randomFoodPosition_rejection_sampling
                                         feedingOracle fullBoard 0))))).
    intros c Hc. by apply fullBoard_elem.
Defined.

(** C2 as stated fails: with every cell of the board forbidden the loop
    returns nothing, neither a cell nor a full-board signal, for any draws
    and any number of iterations. *)
Lemma full_board_placement_never_returns :
  ¬ ∃ rand fuel k r, randomFoodPosition rand fuel fullBoard k = Some r.
Proof.
  intros (rand & fuel & k & r & Hret).
  unfold randomFoodPosition in Hret. rewrite randomFoodLoop_stuck in Hret; [done|].
  intros [a b] Hc. by apply takenKeys_elem, fullBoard_elem.
Qed.

(** ** Pause, resume, start *)

(** C3, as the code has it: the button and the space bar resume a paused
    game: the state becomes running, the interval is scheduled again at the
    tick rate of the current speed level, and snake, food, score, speed
    level and direction stay as they are, no food is drawn.  The reset to
    the initial defaults is what they do from idle and from over. *)
Theorem start_while_paused_resumes rand fuel g :
  (gameState g = paused →
   ∃ g', dispatch rand fuel ClickPause g = Done g' ∧
         dispatch rand fuel (KeyDown "Space") g = Done g' ∧
         gameState g' = running ∧ snake g' = snake g ∧ food g' = food g ∧
         score g' = score g ∧ speedLevel g' = speedLevel g ∧
         direction g' = direction g ∧ queuedDirection g' = queuedDirection g ∧
         draws g' = draws g ∧
         loopRef g' = Some (mkInterval (tickRate (speedLevel g)) (food g))) ∧
  (gameState g = idle ∨ gameState g = over →
   ∀ fd k, randomFoodPosition rand fuel INITIAL_SNAKE (draws g) = Some (fd, k) →
   ∃ g', dispatch rand fuel ClickPause g = Done g' ∧
         dispatch rand fuel (KeyDown "Space") g = Done g' ∧
         gameState g' = running ∧ snake g' = INITIAL_SNAKE ∧ food g' = fd ∧
         score g' = 0 ∧ speedLevel g' = 0 ∧
         direction g' = RIGHT ∧ queuedDirection g' = RIGHT ∧
         loopRef g' = Some (mkInterval (tickRate 0) fd)).
Proof.
  split.
  - intros Hp. rewrite !dispatch_eq. simpl handler.
    rewrite handleKeyDown_space, togglePause_eq, Hp.
    eexists. split_and!; try reflexivity.
    unfold rendered. cells. rewrite Hp.
    rewrite (bool_decide_eq_true_2 (paused ≠ running)) by done.
    by rewrite bool_decide_eq_true_2.
  - intros Hs fd k Hf. rewrite !dispatch_eq. simpl handler.
    rewrite handleKeyDown_space, togglePause_eq, Hf.
    eexists. split_and!; [by destruct Hs as [-> | ->]..| | | | | | | |];
      try reflexivity.
    unfold rendered, afterReset. cells.
    assert (bool_decide (gameState g ≠ running) = true) as ->
      by (apply bool_decide_eq_true_2; destruct Hs; congruence).
    by rewrite bool_decide_eq_true_2.
Qed.

Lemma start_while_paused_resumes_witness :
  ∃ g', dispatch feedingOracle 1 ClickPause pausedGame = Done g' ∧
        dispatch feedingOracle 1 (KeyDown "Space") pausedGame = Done g' ∧
        gameState g' = running ∧ snake g' = snake pausedGame ∧
        food g' = food pausedGame ∧ score g' = score pausedGame ∧
        speedLevel g' = speedLevel pausedGame ∧
        direction g' = direction pausedGame ∧
        queuedDirection g' = queuedDirection pausedGame ∧
        draws g' = draws pausedGame ∧
        loopRef g' = Some (mkInterval (tickRate (speedLevel pausedGame))
                                      (food pausedGame)).
Proof.
  apply (proj1 (start_while_paused_resumes feedingOracle 1 pausedGame)).
  reflexivity.
Defined.

(** C3 as stated fails: a game paused after one meal, started again by the
    button or by the space bar, runs on with its four segments, its score
    of 10 and its speed level 1. *)
Lemma start_while_paused_does_not_reset :
  session feedingOracle 1 None [TapPause; Tick; TapPause] = Done pausedGame ∧
  gameState pausedGame = paused ∧
  ∃ g', dispatch feedingOracle 1 ClickPause pausedGame = Done g' ∧
        dispatch feedingOracle 1 (KeyDown "Space") pausedGame = Done g' ∧
        gameState g' = running ∧
        snake g' ≠ INITIAL_SNAKE ∧ score g' = 10 ∧ speedLevel g' = 1.
Proof.
  split; [exact pausedGame_reached|]. split; [reflexivity|].
  vm_compute. eexists. split_and!; try reflexivity. discriminate.
Qed.

(** ** Turns *)

Ltac same_deps :=
  repeat match goal with
         | |- context [bool_decide (?a ≠ ?a)] =>
             rewrite (bool_decide_eq_false_2 (a ≠ a)) by (by intros ?)
         end.

(** C10: the key handler and the touch handler arbitrate a turn in the same
    way, and neither looks at the game state: a turn leaves every game state
    as it found it and does to the directions of an idle, paused or over
    game what it does to those of a running one.  A turn that is not the
    opposite of [directionRef] becomes the pending direction, and an
    accepted turn is written to the committed direction cell as well. *)
Theorem turns_not_gated_on_game_state rand fuel code next g :
  keyMap !! code = Some next →
  dispatch rand fuel (KeyDown code) g = dispatch rand fuel (ClickDirection next) g ∧
  (∀ gs, dispatch rand fuel (ClickDirection next) (set_gameState gs g) =
         match dispatch rand fuel (ClickDirection next) g with
         | Done g' => Done (set_gameState gs g')
         | TypeError => TypeError
         | OutOfFuel => OutOfFuel
         end) ∧
  ∃ g', dispatch rand fuel (ClickDirection next) g = Done g' ∧
        gameState g' = gameState g ∧ snake g' = snake g ∧ loopRef g' = loopRef g ∧
        queuedDirection g' =
          (if isOppositeDirection (directionRef g) next then queuedDirection g
           else next) ∧
        direction g' =
          (if isOppositeDirection (directionRef g) next ||
              bool_decide (queuedDirection g = next)
           then direction g else next).
Proof.
  intros Hkey. rewrite !dispatch_eq. simpl handler.
  rewrite (handleKeyDown_direction rand fuel code next g Hkey).
  split; [done|].
  split.
  - intros gs. rewrite dispatch_eq. simpl handler. rewrite !changeDirection_eq.
    cells. f_equal.
    destruct g as [sn fd d qd gs0 sc hs sl lr dr qr gsr scr st dw].
    cells.
    destruct (isOppositeDirection dr next || bool_decide (qd = next));
      unfold rendered, startLoopChanged; cells; same_deps; reflexivity.
  - rewrite changeDirection_eq. eexists. split; [reflexivity|].
    destruct (isOppositeDirection (directionRef g) next) eqn:Eo; simpl orb;
      [|case_bool_decide as Eq]; unfold rendered, startLoopChanged; cells;
      same_deps; by cbn.
Qed.

Lemma turns_not_gated_on_game_state_witness :
  dispatch feedingOracle 1 (KeyDown "ArrowUp") mountedGame =
    dispatch feedingOracle 1 (ClickDirection UP) mountedGame ∧
  (∀ gs, dispatch feedingOracle 1 (ClickDirection UP) (set_gameState gs mountedGame) =
         match dispatch feedingOracle 1 (ClickDirection UP) mountedGame with
         | Done g' => Done (set_gameState gs g')
         | TypeError => TypeError
         | OutOfFuel => OutOfFuel
         end) ∧
  ∃ g', dispatch feedingOracle 1 (ClickDirection UP) mountedGame = Done g' ∧
        gameState g' = gameState mountedGame ∧ snake g' = snake mountedGame ∧
        loopRef g' = loopRef mountedGame ∧
        queuedDirection g' =
          (if isOppositeDirection (directionRef mountedGame) UP
           then queuedDirection mountedGame else UP) ∧
        direction g' =
          (if isOppositeDirection (directionRef mountedGame) UP ||
              bool_decide (queuedDirection mountedGame = UP)
           then direction mountedGame else UP).
Proof.
  apply (turns_not_gated_on_game_state feedingOracle 1 "ArrowUp" UP mountedGame).
  vm_compute. reflexivity.
Defined.

(** In an idle game the turn is taken all the same. *)
Example turn_while_idle :
  ∃ g', dispatch feedingOracle 1 (KeyDown "ArrowUp") mountedGame = Done g' ∧
        gameState g' = idle ∧ queuedDirection g' = UP ∧ direction g' = UP ∧
        directionRef g' = UP ∧ queuedRef g' = UP.
Proof. vm_compute. eexists. split_and!; reflexivity. Qed.

(** A request that is the opposite of [directionRef] changes nothing. *)
Lemma opposite_of_directionRef_rejected rand fuel next g :
  isOppositeDirection (directionRef g) next = true →
  dispatch rand fuel (ClickDirection next) g = Done g.
Proof.
  intros Ho. rewrite dispatch_eq. simpl handler.
  rewrite changeDirection_eq, Ho. simpl orb. f_equal.
  destruct g as [sn fd d qd gs sc hs sl lr dr qr gsr scr st dw].
  unfold rendered, startLoopChanged. cells. same_deps. reflexivity.
Qed.

(** In a run the four direction cells agree between events, so the heading
    the arbiter compares a request with is the pending turn. *)
Lemma reachable_heading rand g :
  reachable rand g →
  direction g = queuedDirection g ∧ directionRef g = queuedDirection g ∧
  queuedRef g = queuedDirection g.
Proof. intros Hr. by destruct (reachable_Inv rand g Hr). Qed.

(** C1 fails on the code: the snake has just moved RIGHT; UP is requested
    and accepted, which also writes UP to the committed cell; LEFT, the
    opposite of the heading the tick began with, is then accepted too, and
    the next tick turns the head back into the neck. *)
Theorem reversal_accepted_within_one_tick :
  ∃ g g1 g2 g3 iv,
    session openFieldOracle 1 None [TapPause; Tick] = Done g ∧
    snake g = [mkCoordinate 10 10; mkCoordinate 9 10; mkCoordinate 8 10] ∧
    directionRef g = RIGHT ∧ queuedDirection g = RIGHT ∧ loopRef g = Some iv ∧
    dispatch openFieldOracle 1 (ClickDirection UP) g = Done g1 ∧
    queuedDirection g1 = UP ∧ directionRef g1 = UP ∧ snake g1 = snake g ∧
    isOppositeDirection RIGHT LEFT = true ∧
    dispatch openFieldOracle 1 (ClickDirection LEFT) g1 = Done g2 ∧
    dispatch openFieldOracle 1 (KeyDown "ArrowLeft") g1 = Done g2 ∧
    queuedDirection g2 = LEFT ∧ loopRef g2 = Some iv ∧
    dispatch openFieldOracle 1 (IntervalFires iv) g2 = Done g3 ∧
    gameState g3 = over.
Proof.
  do 5 eexists. repeat (split; [vm_compute; reflexivity|]).
  vm_compute. reflexivity.
Qed.

(** * More of the component

    ** Events on the states between events

    In a state where the refs mirror the cells, each event has a closed
    form. *)

Ltac settle :=
  repeat match goal with
         | |- context [@bool_decide ?P ?d] =>
             first
               [ rewrite (@bool_decide_eq_true_2 P d) by (first [done | congruence | lia])
               | rewrite (@bool_decide_eq_false_2 P d) by (first [done | congruence | lia]) ]
         end;
  cbn [orb andb negb].

Ltac goal_decide :=
  match goal with
  | |- context [@bool_decide ?P ?d] =>
      destruct (decide P);
      [ rewrite (@bool_decide_eq_true_2 P d) by done
      | rewrite (@bool_decide_eq_false_2 P d) by done ]
  end.

Ltac records :=
  cbv beta iota delta
    [snake food direction queuedDirection gameState score highScore
     speedLevel loopRef directionRef queuedRef gameStateRef scoreRef
     storedHighScore draws
     set_snake set_food set_direction set_queuedDirection set_gameState
     set_score set_highScore set_speedLevel set_loopRef set_directionRef
     set_queuedRef set_gameStateRef set_scoreRef set_storedHighScore
     set_draws].

Section SettledEquations.
Variable rand : nat → Z.
Variable fuel : nat.

Lemma settled_turn next g :
  Settled g →
  dispatch rand fuel (ClickDirection next) g =
  Done (if isOppositeDirection (queuedDirection g) next ||
           bool_decide (queuedDirection g = next)
        then g else turned next g).
Proof.
  intros [Hd Hdr Hqr Hgr Hsr Hl Hs Hst].
  rewrite dispatch_eq. simpl handler. rewrite changeDirection_eq, Hdr.
  destruct g as [sn fd d qd gs sc hs sl lr dr qr gsr scr st dw]. cells. subst.
  destruct (isOppositeDirection qd next || bool_decide (qd = next)) eqn:E;
    unfold rendered, startLoopChanged, turned; cells; f_equal.
  - settle. reflexivity.
  - apply orb_false_iff in E as [_ E%bool_decide_eq_false].
    settle. reflexivity.
Qed.

Lemma settled_pause g :
  Settled g →
  dispatch rand fuel ClickPause g =
  match gameState g with
  | running => Done (halted paused g)
  | paused => Done (resumed g)
  | idle | over =>
      match randomFoodPosition rand fuel INITIAL_SNAKE (draws g) with
      | Some (fd, k) => Done (started fd k g)
      | None => OutOfFuel
      end
  end.
Proof.
  intros [Hd Hdr Hqr Hgr Hsr Hl Hs Hst].
  rewrite dispatch_eq. simpl handler. rewrite togglePause_eq.
  destruct g as [sn fd d qd gs sc hs sl lr dr qr gsr scr st dw]. cells. subst.
  destruct gs; try destruct (randomFoodPosition _ _ _ _) as [[fd' k]|]; try done;
    unfold rendered, startLoopChanged, halted, resumed, started, afterReset;
    cells; f_equal; settle; try reflexivity.
  all: repeat case_bool_decide; cbn [orb andb]; reflexivity.
Qed.

Lemma settled_tick iv g :
  Settled g → Inv g → loopRef g = Some iv →
  dispatch rand fuel (IntervalFires iv) g =
  match snake g with
  | [] => TypeError
  | head :: _ =>
      let nextHead := getNextHead head (queuedDirection g) in
      if collision nextHead (snake g) then Done (halted over g)
      else if ate nextHead (food g) then
        match randomFoodPosition rand fuel (nextHead :: snake g) (draws g) with
        | Some (fd, k) => Done (fed nextHead fd k g)
        | None => OutOfFuel
        end
      else Done (moved nextHead g)
  end.
Proof.
  intros [Hd Hdr Hqr Hgr Hsr Hl Hs Hst] HI Hiv.
  destruct (inv_loop g HI iv Hiv) as (Hseen & Hdelay & Hrun).
  pose proof (inv_food g HI) as Hfood.
  rewrite dispatch_eq. simpl handler. rewrite intervalCallback_eq, Hqr, Hseen.
  clear Hseen Hdelay Hiv HI iv.
  destruct (snake g) as [|hd tl] eqn:Es; [done|]. cbv zeta.
  set (nh := getNextHead hd (queuedDirection g)).
  destruct (collision nh (hd :: tl)) eqn:Ec.
  - f_equal. destruct g as [sn fd d qd gs sc hs sl lr dr qr gsr scr st dw].
    cells. subst. unfold rendered, startLoopChanged, halted, recordHighScore.
    cells. settle. cells. settle. reflexivity.
  - destruct (ate nh (food g)) eqn:Ea.
    + destruct (randomFoodPosition _ _ _ _) as [[fd' k]|] eqn:Ef; [|done].
      apply randomFoodPosition_sound in Ef as [Hfree _].
      apply ate_true in Ea.
      assert (fd' ≠ food g) as Hne.
      { intros ->. apply Hfree. rewrite <-Ea. left. }
      clear Ea Hfree Hfood. f_equal. destruct g as [sn fd d qd gs sc hs sl lr dr qr gsr scr st dw].
      cells. subst. unfold rendered, startLoopChanged, fed. cells.
      assert (bool_decide (x fd ≠ x fd') || bool_decide (y fd ≠ y fd') = true) as Hxy.
      { destruct fd as [a b], fd' as [a' b']; cbn [x y]. apply orb_true_iff.
        destruct (decide (a = a')) as [->|]; [right|left];
          apply bool_decide_eq_true_2; congruence. }
      rewrite Hxy. settle.
      clear Hxy. records. case_bool_decide; f_equal; lia.
    + f_equal. destruct g as [sn fd d qd gs sc hs sl lr dr qr gsr scr st dw].
      cells. subst. unfold rendered, startLoopChanged, moved. cells.
      settle. rewrite removelast_cons by done. reflexivity.
Qed.

Lemma rendered_same g : rendered false g g = g.
Proof.
  destruct g as [sn fd d qd gs sc hs sl lr dr qr gsr scr st dw].
  unfold rendered, startLoopChanged. cells. same_deps. reflexivity.
Qed.

Lemma dispatch_KeyDown code g :
  dispatch rand fuel (KeyDown code) g =
  match keyMap !! code with
  | Some next => dispatch rand fuel (ClickDirection next) g
  | None => if bool_decide (code = "Space"%string)
            then dispatch rand fuel ClickPause g else Done g
  end.
Proof.
  rewrite !dispatch_eq. simpl handler.
  destruct (keyMap !! code) as [next|] eqn:Ek.
  - by rewrite dispatch_eq, (handleKeyDown_direction rand fuel code next g Ek).
  - case_bool_decide as Hs.
    + subst code. by rewrite handleKeyDown_space.
    + rewrite handleKeyDown_other by done. by rewrite rendered_same.
Qed.

Lemma dispatch_Step e g g' :
  Settled g → Inv g → enabled e g →
  dispatch rand fuel e g = Done g' → Step rand fuel g e g'.
Proof.
  intros HS HI Hen.
  assert (∀ e0 next, dispatch rand fuel (ClickDirection next) g = Done g' →
                     Step rand fuel g e0 g') as Hturn.
  { intros e0 next. rewrite settled_turn by done.
    destruct (isOppositeDirection _ _ || bool_decide _) eqn:E; intros [= <-].
    - constructor.
    - apply orb_false_iff in E as [Ho Hq%bool_decide_eq_false].
      by apply step_turn. }
  assert (∀ e0, dispatch rand fuel ClickPause g = Done g' →
                Step rand fuel g e0 g') as Hpause.
  { intros e0. rewrite settled_pause by done.
    destruct (gameState g) eqn:Egs.
    - destruct (randomFoodPosition _ _ _ _) as [[fd k]|] eqn:Ef; [|done].
      intros [= <-]. apply step_start; [by left|done].
    - intros [= <-]. by apply step_pause.
    - intros [= <-]. by apply step_resume.
    - destruct (randomFoodPosition _ _ _ _) as [[fd k]|] eqn:Ef; [|done].
      intros [= <-]. apply step_start; [by right|done]. }
  destruct e as [code| |next|iv].
  - rewrite dispatch_KeyDown. destruct (keyMap !! code) as [next|]; [by apply Hturn|].
    case_bool_decide; [by apply Hpause|]. intros [= <-]. constructor.
  - apply Hpause.
  - apply Hturn.
  - simpl in Hen. destruct (inv_loop g HI iv Hen) as (_ & _ & Hrun).
    rewrite settled_tick by done.
    destruct (snake g) as [|hd tl] eqn:Es; [done|]. cbv zeta.
    destruct (collision _ _) eqn:Ec.
    + intros [= <-]. eapply step_crash; [done..|]. by rewrite Es.
    + destruct (ate _ _) eqn:Ea.
      * destruct (randomFoodPosition _ _ _ _) as [[fd k]|] eqn:Ef; [|done].
        intros [= <-]. rewrite <-Es in Ef.
        eapply step_eat; [done..|by rewrite Es|by apply ate_true|done].
      * intros [= <-].
        eapply step_move; [done..|by rewrite Es|by apply ate_false].
Qed.
End SettledEquations.

(** ** Invariants of the states between events *)

Lemma getNextHead_adjacent c d : adjacent (getNextHead c d) c.
Proof. destruct c as [a b], d; unfold adjacent; cbn [x y getNextHead]; lia. Qed.

Lemma contiguous_cons a l :
  contiguous l → (∀ b l', l = b :: l' → adjacent a b) → contiguous (a :: l).
Proof. intros Hl Ha. split; [|done]. destruct l; [done|]. by eapply Ha. Qed.

Lemma contiguous_removelast l : contiguous l → contiguous (removelast l).
Proof.
  induction l as [|a l IH]; [done|]. intros [Ha Hl].
  destruct l as [|b l]; [done|]. rewrite removelast_cons by done.
  apply contiguous_cons; [by apply IH|].
  intros b' l' Hb. destruct l as [|c l]; [done|].
  rewrite removelast_cons in Hb by done. by injection Hb as <- _.
Qed.

Lemma INITIAL_SNAKE_contiguous : contiguous INITIAL_SNAKE.
Proof. unfold INITIAL_SNAKE, adjacent. cbn [contiguous x y]. split_and!; (done || lia). Qed.

Lemma Step_Settled rand fuel g e g' :
  Step rand fuel g e g' → Settled g → Settled g'.
Proof.
  intros HS [Hd Hdr Hqr Hgr Hsr Hl Hs Hst].
  destruct HS; [done|..];
    unfold turned, halted, resumed, started, afterReset, fed, moved;
    (constructor; cells; rewrite ?Hl; settle; try done; try lia;
     try (goal_decide; simpl; lia)).
Qed.

Lemma Step_Shape rand fuel g e g' :
  Step rand fuel g e g' → Inv g → Shape g → Shape g'.
Proof.
  intros HS HI [Hlen Hsc Hlv Hct Hfd].
  destruct HS as [ | | | |e fd k Hgs Hf|iv hd tl Hrun Es Hc
                 |iv hd tl fd k Hrun Es Hc Ha Hf|iv hd tl Hrun Es Hc Ha];
    try (by constructor).
  - apply randomFoodPosition_sound in Hf as [_ Hin].
    constructor; unfold started, afterReset; cells;
      first [done | apply INITIAL_SNAKE_contiguous | (simpl; lia)].
  - apply randomFoodPosition_sound in Hf as [_ Hin].
    constructor; unfold fed; cells; try done; try (cbn [length]; lia).
    apply contiguous_cons; [done|]. intros b l' Hb.
    rewrite Es in Hb. injection Hb as <- _. apply getNextHead_adjacent.
  - assert (tl ≠ []) as Htl by (intros ->; rewrite Es in Hlen; simpl in Hlen; lia).
    assert (length (getNextHead hd (queuedDirection g) :: removelast (snake g))
            = length (snake g)) as Hsame.
    { rewrite Es, <-removelast_cons, removelast_length_cons by done. done. }
    constructor; unfold moved; cells; rewrite ?Hsame; try done.
    apply contiguous_cons; [by apply contiguous_removelast|].
    intros b l' Hb. rewrite Es in Hb.
    rewrite removelast_cons in Hb by done. injection Hb as <- _.
    apply getNextHead_adjacent.
Qed.

Section SettledInvariant.
Variable rand : nat → Z.

Lemma mount_Settled fuel stored g : mount rand fuel stored = Done g → Settled g.
Proof.
  unfold mount.
  destruct (randomFoodPosition rand fuel INITIAL_SNAKE 0) as [[fd k]|] eqn:Ef;
    [|done].
  rewrite effects_eq. intros [= <-].
  constructor; unfold rendered; cells; try done.
  all: cbn [orb andb]; destruct stored as [v|]; cbn [default];
    goal_decide; cbn [default]; unfold id; lia.
Qed.

Lemma mount_Shape fuel stored g : mount rand fuel stored = Done g → Shape g.
Proof.
  unfold mount.
  destruct (randomFoodPosition rand fuel INITIAL_SNAKE 0) as [[fd k]|] eqn:Ef;
    [|done].
  rewrite effects_eq. intros [= <-].
  apply randomFoodPosition_sound in Ef as [_ Hin].
  constructor; unfold rendered; cells;
    first [done | apply INITIAL_SNAKE_contiguous].
Qed.

Lemma reachable_Settled_Shape g : reachable rand g → Settled g ∧ Shape g.
Proof.
  induction 1 as [fuel stored g Hm|fuel e g g' Hr [HS HSh] Hen Hd].
  - split; [by eapply mount_Settled|by eapply mount_Shape].
  - pose proof (reachable_Inv rand g Hr) as HI.
    pose proof (dispatch_Step rand fuel e g g' HS HI Hen Hd) as Hstep.
    split; [by eapply Step_Settled|by eapply Step_Shape].
Qed.
End SettledInvariant.

(** ** Scenario states are states of a run *)

Lemma mountedGame_reachable : reachable feedingOracle mountedGame.
Proof. exact (session_reachable _ _ _ _ _ mountedGame_reached). Qed.

Lemma startedGame_reachable : reachable feedingOracle startedGame.
Proof. exact (session_reachable _ _ _ _ _ startedGame_reached). Qed.

Lemma pausedGame_reachable : reachable feedingOracle pausedGame.
Proof. exact (session_reachable _ _ _ _ _ pausedGame_reached). Qed.

Lemma wallGame_reachable : reachable openFieldOracle wallGame.
Proof. exact (session_reachable _ _ _ _ _ wallGame_reached). Qed.

Lemma coiledGame_reachable : reachable feedingOracle coiledGame.
Proof. exact (session_reachable _ _ _ _ _ coiledGame_reached). Qed.

Lemma reachable_Step rand fuel e g g' :
  reachable rand g → enabled e g → dispatch rand fuel e g = Done g' →
  Step rand fuel g e g'.
Proof.
  intros Hr. destruct (reachable_Settled_Shape rand g Hr) as [HS _].
  apply dispatch_Step; [done|by apply (reachable_Inv rand)].
Qed.

(** ** Ordinary runs *)

Lemma ordinaryRun_reachable rand g : ordinaryRun rand g → reachable rand g.
Proof.
  induction 1 as [fuel stored g _ Hm|fuel e g g' _ IH Hen _ Hd].
  - by eapply reach_mount.
  - by eapply reach_event.
Qed.

Lemma play_ordinaryRun rand fuel inputs g g' :
  Forall keyboardInput inputs → ordinaryRun rand g →
  play rand fuel inputs g = Done g' → ordinaryRun rand g'.
Proof.
  intros Hk. revert g. induction Hk as [|i rest Hi _ IH]; intros g Hg; simpl.
  - by intros [= <-].
  - destruct (eventOf i g) as [e|] eqn:Ee; [|by apply IH].
    destruct (dispatch rand fuel e g) as [g1| |] eqn:Ed; [|done..].
    apply IH. apply (ordinary_event rand fuel e g g1 Hg); [| |done].
    + destruct i; simpl in Ee; try (by injection Ee as <-).
      destruct (loopRef g) as [iv|] eqn:El; simpl in Ee; [|done].
      injection Ee as <-. exact El.
    + destruct i; simpl in Ee; try (by injection Ee as <-).
      by destruct (loopRef g); simplify_eq/=.
Qed.

Lemma session_ordinaryRun rand fuel stored inputs g :
  numeral stored → Forall keyboardInput inputs →
  session rand fuel stored inputs = Done g → ordinaryRun rand g.
Proof.
  intros Hn Hk. unfold session.
  destruct (mount rand fuel stored) as [g0| |] eqn:Em; [|done..].
  apply play_ordinaryRun; [done|]. by eapply ordinary_mount.
Qed.


Lemma pausedGame_ordinary : ordinaryRun feedingOracle pausedGame.
Proof.
  apply (session_ordinaryRun _ 1 None [TapPause; Tick; TapPause]);
    [done|by repeat constructor|apply pausedGame_reached].
Qed.

Lemma reachable_score rand g : reachable rand g → 0 ≤ score g ≤ 3960.
Proof.
  intros Hr. destruct (reachable_Settled_Shape rand g Hr) as [_ HSh].
  pose proof (reachable_Inv rand g Hr) as HI.
  assert (length (food g :: snake g) ≤ length fullBoard)%nat as Hlen.
  { apply submseteq_length, NoDup_submseteq.
    - constructor; apply HI.
    - intros c [->|Hc]%elem_of_cons; apply fullBoard_elem; [apply HSh|].
      by eapply (proj1 (Forall_forall _ _) (inv_board g HI)). }
  rewrite fullBoard_cells in Hlen. cbn [length] in Hlen.
  pose proof (sh_length g HSh). rewrite (sh_score g HSh). lia.
Qed.

Lemma mount_highScore rand fuel stored g :
  mount rand fuel stored = Done g →
  highScore g = Z.max 0 (default 0 stored) ∧
  storedHighScore g =
    (if bool_decide (default 0 stored < 0) then Some 0 else stored).
Proof.
  unfold mount.
  destruct (randomFoodPosition rand fuel INITIAL_SNAKE 0) as [[fd k]|] eqn:Ef;
    [|done].
  rewrite effects_eq. intros [= <-].
  unfold rendered. cells. cbn [orb andb].
  split.
  - destruct stored as [v|]; cbn [default]; unfold id; goal_decide; lia.
  - destruct stored as [v|]; cbn [default]; unfold id;
      destruct (decide (0 > v)) || idtac;
      repeat (goal_decide; try lia); done.
Qed.

(** The high score of an ordinary run stays a safe integer. *)
Lemma ordinaryRun_highScore rand g : ordinaryRun rand g → 0 ≤ highScore g < 2 ^ 53.
Proof.
  induction 1 as [fuel stored g Hn Hm|fuel e g g' Hr IH Hen _ Hd].
  - apply mount_highScore in Hm as [-> _].
    destruct stored as [v|]; cbn [default numeral] in *; unfold id, safeInteger in *; lia.
  - apply ordinaryRun_reachable in Hr.
    pose proof (reachable_score rand g Hr) as Hsc.
    destruct (reachable_Step rand fuel e g g' Hr Hen Hd);
      unfold turned, halted, resumed, started, afterReset, fed, moved; cells; lia.
Qed.

(** ** The tour *)

Lemma play_app rand fuel a b g :
  play rand fuel (a ++ b) g =
  match play rand fuel a g with
  | Done g' => play rand fuel b g'
  | TypeError => TypeError
  | OutOfFuel => OutOfFuel
  end.
Proof.
  revert g. induction a as [|i a IH]; intros g; [done|]. cbn [app play].
  destruct (eventOf i g) as [e|]; [|apply IH].
  destruct (dispatch rand fuel e g) as [g1| |]; [apply IH|done..].
Qed.

(** A meal in closed form is what the tap and the tick do. *)
Lemma meal_play rand d g g' :
  reachable rand g → meal rand d g = Some g' →
  play rand 1 [TapDirection d; Tick] g = Done g'.
Proof.
  intros Hr. destruct (reachable_Settled_Shape rand g Hr) as [HS _].
  unfold meal. destruct (snake g) as [|hd tl] eqn:Es; [done|]. cbv zeta.
  destruct (bool_decide (gameState g = running)) eqn:Hrun; [|done].
  destruct (isOppositeDirection (queuedDirection g) d) eqn:Ho; [done|].
  destruct (collision (getNextHead hd d) (hd :: tl)) eqn:Hc; [done|].
  destruct (ate (getNextHead hd d) (food g)) eqn:Ha; [|done].
  destruct (collision (drawnCell rand (draws g)) (getNextHead hd d :: hd :: tl))
    eqn:Hf; [done|].
  cbn [andb negb]. intros [= <-].
  apply bool_decide_eq_true in Hrun. apply collision_false in Hf as [_ Hf].
  cbn [play eventOf]. rewrite (settled_turn rand 1 d g HS), Ho. cbn [orb].
  set (g1 := if bool_decide (queuedDirection g = d) then g else turned d g).
  assert (reachable rand g1) as Hr1.
  { apply (reach_event rand 1 (ClickDirection d) g g1 Hr I).
    by rewrite (settled_turn rand 1 d g HS), Ho. }
  assert (snake g1 = hd :: tl ∧ food g1 = food g ∧ draws g1 = draws g ∧
          queuedDirection g1 = d ∧ gameState g1 = running)
    as (Es1 & Ef1 & Ed1 & Eq1 & Eg1).
  { subst g1. case_bool_decide; [by subst|]. unfold turned. by cells. }
  destruct (reachable_Settled_Shape rand g1 Hr1) as [HS1 _].
  pose proof (reachable_Inv rand g1 Hr1) as HI1.
  pose proof (st_loopRef g1 HS1) as Hl1.
  rewrite bool_decide_eq_true_2 in Hl1 by done.
  rewrite Hl1. cbn [fmap option_fmap option_map].
  rewrite (settled_tick rand 1 _ g1 HS1 HI1 Hl1), Es1, Eq1, Ef1, Ed1. cbv zeta.
  rewrite Hc, Ha, (randomFoodPosition_first rand 0) by done.
  done.
Qed.

Lemma meals_play rand ds g g' :
  reachable rand g → meals rand ds g = Some g' →
  play rand 1 (steering ds) g = Done g'.
Proof.
  revert g. induction ds as [|d ds IH]; intros g Hr; cbn [meals].
  - by intros [= <-].
  - destruct (meal rand d g) as [g1|] eqn:Em; [|done]. intros Hm.
    change (steering (d :: ds)) with ([TapDirection d; Tick] ++ steering ds).
    rewrite play_app, (meal_play rand d g g1 Hr Em).
    apply IH; [|done].
    apply (play_reachable rand 1 [TapDirection d; Tick] g); [done|].
    by apply meal_play.
Qed.

Example tour_visits :
  length tourCells = 397%nat ∧ last tourCells = Some (mkCoordinate 19 9).
Proof. split; reflexivity. Qed.

Lemma tour_meals :
  meals tourOracle (removelast (headings tour)) startedGame = Some crowdedGame.
Proof. vm_compute. reflexivity. Qed.

Lemma startedGame_on_tour : session tourOracle 1 None [TapPause] = Done startedGame.
Proof. vm_compute. reflexivity. Qed.

Lemma crowdedGame_reached : session tourOracle 1 None tourInputs = Done crowdedGame.
Proof.
  pose proof startedGame_on_tour as Hs.
  pose proof (session_reachable _ _ _ _ _ Hs) as Hr. unfold session in *.
  destruct (mount tourOracle 1 None) as [g0| |]; [|done..].
  unfold tourInputs. change (TapPause :: ?l) with ([TapPause] ++ l).
  rewrite play_app, Hs. by apply meals_play; [|apply tour_meals].
Qed.

(** The snake of [crowdedGame] and its food cover the board. *)
Lemma crowdedGame_full c : inBoard c → c ∈ food crowdedGame :: snake crowdedGame.
Proof.
  intros Hc%fullBoard_elem. revert c Hc. apply Forall_forall.
  apply (bool_decide_unpack _). vm_compute. exact I.
Qed.

(** C6 as stated fails: a game can be played, meal by meal, until the snake
    has 399 segments and the food lies on the last free cell, right ahead of
    the head.  The tick that reaches it neither collides nor grows the
    snake: it does not return, for any draws and after any number of
    iterations of the placement loop. *)
Lemma last_meal_never_returns :
  session tourOracle 1 None tourInputs = Done crowdedGame ∧
  length (snake crowdedGame) = 399%nat ∧
  loopRef crowdedGame = Some (mkInterval 88 (mkCoordinate 19 9)) ∧
  head (snake crowdedGame) = Some (mkCoordinate 19 8) ∧
  getNextHead (mkCoordinate 19 8) (queuedRef crowdedGame) = food crowdedGame ∧
  inBoard (food crowdedGame) ∧ (food crowdedGame ∉ snake crowdedGame) ∧
  ∀ rand fuel,
    dispatch rand fuel (IntervalFires (mkInterval 88 (mkCoordinate 19 9))) crowdedGame
    = OutOfFuel.
Proof.
  pose proof (session_reachable _ _ _ _ _ crowdedGame_reached) as Hr.
  destruct (reachable_Settled_Shape _ _ Hr) as [_ HSh].
  pose proof (sh_food _ HSh) as Hin.
  pose proof (inv_food _ (reachable_Inv _ _ Hr)) as Hfree.
  clear Hr HSh.
  split_and!.
  - apply crowdedGame_reached.
  - vm_compute. reflexivity.
  - reflexivity.
  - vm_compute. reflexivity.
  - reflexivity.
  - exact Hin.
  - exact Hfree.
  - intros rand fuel.
    assert (∃ tl, snake crowdedGame = mkCoordinate 19 8 :: tl) as [tl Hs]
      by (eexists; vm_compute; reflexivity).
    apply (tick_hungry rand fuel _ crowdedGame (mkCoordinate 19 8) tl Hs).
    + apply collision_false. split; [exact Hin|exact Hfree].
    + by apply ate_true.
    + apply randomFoodPosition_None. intros i _.
      apply crowdedGame_full, drawnCell_inBoard.
Qed.

(** ** Directions and moves *)

(** X1: two directions are opposite exactly when a step in the second
    undoes a step in the first; the relation is symmetric and no direction
    is its own opposite. *)
Theorem opposite_undoes_the_move d d' :
  (isOppositeDirection d d' = true ↔
   ∀ c, getNextHead (getNextHead c d) d' = c) ∧
  isOppositeDirection d d' = isOppositeDirection d' d ∧
  isOppositeDirection d d = false.
Proof.
  split_and!; [|by destruct d, d'|by destruct d].
  split.
  - intros Ho [a b]. destruct d, d'; try discriminate Ho;
      cbn [getNextHead x y]; f_equal; lia.
  - intros Hc. specialize (Hc (mkCoordinate 0 0)).
    destruct d, d'; try reflexivity; discriminate Hc.
Qed.

(** X2: in every state of a run the snake has at least three segments and
    is a path: each segment is one step, along one axis, from the next. *)
Theorem snake_is_a_path rand g :
  reachable rand g → (3 ≤ length (snake g))%nat ∧ contiguous (snake g).
Proof.
  intros Hr. destruct (reachable_Settled_Shape rand g Hr) as [_ HSh].
  split; apply HSh.
Qed.

Lemma snake_is_a_path_witness :
  (3 ≤ length (snake coiledGame))%nat ∧ contiguous (snake coiledGame).
Proof. apply (snake_is_a_path feedingOracle coiledGame), coiledGame_reachable. Defined.

(** X3: in every state of a run the score is ten times the number of
    segments gained over the initial three, and the speed level is that
    number, capped at 12. *)
Theorem score_and_level_follow_length rand g :
  reachable rand g →
  score g = 10 * (Z.of_nat (length (snake g)) - 3) ∧
  speedLevel g = Z.min (Z.of_nat (length (snake g)) - 3) 12.
Proof.
  intros Hr. destruct (reachable_Settled_Shape rand g Hr) as [_ HSh].
  split; apply HSh.
Qed.

Lemma score_and_level_follow_length_witness :
  score pausedGame = 10 * (Z.of_nat (length (snake pausedGame)) - 3) ∧
  speedLevel pausedGame = Z.min (Z.of_nat (length (snake pausedGame)) - 3) 12.
Proof.
  apply (score_and_level_follow_length feedingOracle pausedGame),
    pausedGame_reachable.
Defined.

(** X4: in every state of a run the snake and the food are on the board,
    so the snake has fewer than 400 segments and the score is at most 3960. *)
Theorem snake_and_food_on_board rand g :
  reachable rand g →
  Forall inBoard (snake g) ∧ inBoard (food g) ∧
  (length (snake g) < 400)%nat ∧ score g ≤ 3960.
Proof.
  intros Hr. destruct (reachable_Settled_Shape rand g Hr) as [_ HSh].
  pose proof (reachable_Inv rand g Hr) as HI.
  assert (length (food g :: snake g) ≤ length fullBoard)%nat as Hlen.
  { apply submseteq_length, NoDup_submseteq.
    - constructor; apply HI.
    - intros c [->|Hc]%elem_of_cons; apply fullBoard_elem; [apply HSh|].
      by eapply (proj1 (Forall_forall _ _) (inv_board g HI)). }
  rewrite fullBoard_cells in Hlen. cbn [length] in Hlen.
  split_and!; [apply HI|apply HSh|lia|]. rewrite (sh_score g HSh). lia.
Qed.

Lemma snake_and_food_on_board_witness :
  Forall inBoard (snake wallGame) ∧ inBoard (food wallGame) ∧
  (length (snake wallGame) < 400)%nat ∧ score wallGame ≤ 3960.
Proof. apply (snake_and_food_on_board openFieldOracle wallGame), wallGame_reachable. Defined.

(** ** High score *)

(** X5: in every state of an ordinary run - one mounted on a storage that
    holds nothing or the numeral of a safe integer - the high score is at
    least the score, is a safe integer itself and is the persisted value (0
    when nothing is persisted); no event lowers it. *)
Theorem high_score_covers_score rand g :
  ordinaryRun rand g →
  0 ≤ score g ≤ highScore g ∧ highScore g < 2 ^ 53 ∧
  highScore g = default 0 (storedHighScore g) ∧
  ∀ fuel e g', enabled e g → dispatch rand fuel e g = Done g' →
               highScore g ≤ highScore g'.
Proof.
  intros Ho. pose proof (ordinaryRun_reachable rand g Ho) as Hr.
  destruct (reachable_Settled_Shape rand g Hr) as [HS _].
  split_and!; [apply HS..|apply (ordinaryRun_highScore rand g Ho)|apply HS|].
  intros fuel e g' Hen Hd.
  destruct (reachable_Step rand fuel e g g' Hr Hen Hd);
    unfold turned, halted, resumed, started, afterReset, fed, moved; cells; lia.
Qed.

Lemma high_score_covers_score_witness :
  0 ≤ score pausedGame ≤ highScore pausedGame ∧ highScore pausedGame < 2 ^ 53 ∧
  highScore pausedGame = default 0 (storedHighScore pausedGame) ∧
  ∀ fuel e g', enabled e pausedGame →
               dispatch feedingOracle fuel e pausedGame = Done g' →
               highScore pausedGame ≤ highScore g'.
Proof.
  apply (high_score_covers_score feedingOracle pausedGame), pausedGame_ordinary.
Defined.

(** X6: the high score survives a reload: mounting the component on the
    storage a run left behind shows the high score of that run. *)
Theorem high_score_survives_reload rand g rand' fuel' g0 :
  reachable rand g →
  mount rand' fuel' (storedHighScore g) = Done g0 →
  highScore g0 = highScore g ∧ storedHighScore g0 = storedHighScore g.
Proof.
  intros Hr. destruct (reachable_Settled_Shape rand g Hr) as [HS _].
  pose proof (st_score g HS) as Hsc. pose proof (st_stored g HS) as Hst.
  unfold mount.
  destruct (randomFoodPosition rand' fuel' INITIAL_SNAKE 0) as [[fd k]|]; [|done].
  rewrite effects_eq. intros [= <-]. unfold rendered. cells.
  cbn [orb andb]. destruct (storedHighScore g) as [v|]; cbn [default] in Hst;
    unfold id in Hst; rewrite bool_decide_eq_false_2 by lia; split; (done || lia).
Qed.

Lemma high_score_survives_reload_witness :
  highScore (set_storedHighScore (Some 10) (set_highScore 10 mountedGame)) =
    highScore pausedGame ∧
  storedHighScore (set_storedHighScore (Some 10) (set_highScore 10 mountedGame)) =
    storedHighScore pausedGame.
Proof.
  apply (high_score_survives_reload feedingOracle pausedGame feedingOracle 1).
  - apply pausedGame_reachable.
  - vm_compute. reflexivity.
Defined.

(** X7: updateHighScore leaves the larger of the old high score and the
    score it is given, writes the storage only when the score is strictly
    larger, touches nothing else, and a second call with the same score
    changes nothing. *)
Theorem updateHighScore_keeps_the_maximum sc g :
  ∃ g', updateHighScore sc g = Done (tt, g') ∧
        highScore g' = Z.max (highScore g) sc ∧
        storedHighScore g' =
          (if bool_decide (sc > highScore g) then Some sc else storedHighScore g) ∧
        set_storedHighScore (storedHighScore g) (set_highScore (highScore g) g') = g ∧
        updateHighScore sc g' = Done (tt, g').
Proof.
  rewrite updateHighScore_eq. eexists. split; [reflexivity|].
  destruct g as [sn fd d qd gs sc0 hs sl lr dr qr gsr scr st dw].
  unfold recordHighScore. cells.
  destruct (decide (sc > hs)) as [Hgt|Hle].
  - rewrite !(bool_decide_eq_true_2 (sc > hs)) by done. cells.
    split_and!; [lia|done|done|].
    rewrite updateHighScore_eq. unfold recordHighScore. cells.
    by rewrite bool_decide_eq_false_2 by lia.
  - rewrite !(bool_decide_eq_false_2 (sc > hs)) by done. cells.
    split_and!; [lia|done|done|].
    rewrite updateHighScore_eq. unfold recordHighScore. cells.
    by rewrite bool_decide_eq_false_2 by done.
Qed.

(** ** Refs, interval and the controls *)

(** X8: between events the refs mirror their cells, the two direction
    cells agree, and an interval is scheduled exactly while the game is
    running: the one with the tick rate of the current speed level whose
    callback sees the current food. *)
Theorem refs_mirror_cells rand g :
  reachable rand g →
  direction g = queuedDirection g ∧ directionRef g = direction g ∧
  queuedRef g = queuedDirection g ∧ gameStateRef g = gameState g ∧
  scoreRef g = score g ∧
  loopRef g = (if bool_decide (gameState g = running)
               then Some (mkInterval (tickRate (speedLevel g)) (food g))
               else None).
Proof.
  intros Hr. destruct (reachable_Settled_Shape rand g Hr) as [[] _].
  split_and!; congruence.
Qed.

Lemma refs_mirror_cells_witness :
  direction coiledGame = queuedDirection coiledGame ∧
  directionRef coiledGame = direction coiledGame ∧
  queuedRef coiledGame = queuedDirection coiledGame ∧
  gameStateRef coiledGame = gameState coiledGame ∧
  scoreRef coiledGame = score coiledGame ∧
  loopRef coiledGame =
    (if bool_decide (gameState coiledGame = running)
     then Some (mkInterval (tickRate (speedLevel coiledGame)) (food coiledGame))
     else None).
Proof. apply (refs_mirror_cells feedingOracle coiledGame), coiledGame_reachable. Defined.

(** X9: pausing a running game clears the interval and resuming brings
    back exactly the state that was paused. *)
Theorem pause_resume_round_trip rand fuel g :
  reachable rand g → gameState g = running →
  ∃ g1, dispatch rand fuel ClickPause g = Done g1 ∧
        gameState g1 = paused ∧ loopRef g1 = None ∧
        dispatch rand fuel ClickPause g1 = Done g.
Proof.
  intros Hr Hrun. destruct (reachable_Settled_Shape rand g Hr) as [HS _].
  exists (halted paused g).
  assert (Settled (halted paused g)) as HS'.
  { apply (Step_Settled rand fuel g ClickPause); [by apply step_pause|done]. }
  rewrite (settled_pause rand fuel g HS), Hrun.
  split_and!; [done..|].
  rewrite (settled_pause rand fuel _ HS'). unfold halted at 1. cells. f_equal.
  destruct HS as [_ _ _ Hgr _ Hl _ _].
  destruct g as [sn fd d qd gs sc hs sl lr dr qr gsr scr st dw].
  unfold resumed, halted. cells. subst.
  rewrite bool_decide_eq_true_2 by done. reflexivity.
Qed.

Lemma pause_resume_round_trip_witness :
  ∃ g1, dispatch feedingOracle 1 ClickPause startedGame = Done g1 ∧
        gameState g1 = paused ∧ loopRef g1 = None ∧
        dispatch feedingOracle 1 ClickPause g1 = Done startedGame.
Proof.
  apply (pause_resume_round_trip feedingOracle 1 startedGame).
  - apply startedGame_reachable.
  - reflexivity.
Defined.

(** X10: in a run a turn request either leaves the state exactly as it is,
    or writes the requested direction to both direction cells and both
    direction refs; the latter exactly when the request is neither the
    pending direction nor its opposite. *)
Theorem turn_in_a_run rand fuel next g :
  reachable rand g →
  dispatch rand fuel (ClickDirection next) g =
  Done (if isOppositeDirection (queuedDirection g) next ||
           bool_decide (queuedDirection g = next)
        then g else turned next g).
Proof.
  intros Hr. destruct (reachable_Settled_Shape rand g Hr) as [HS _].
  by apply settled_turn.
Qed.

Lemma turn_in_a_run_witness :
  dispatch feedingOracle 1 (ClickDirection DOWN) startedGame =
  Done (if isOppositeDirection (queuedDirection startedGame) DOWN ||
           bool_decide (queuedDirection startedGame = DOWN)
        then startedGame else turned DOWN startedGame).
Proof. apply (turn_in_a_run feedingOracle 1 DOWN startedGame), startedGame_reachable. Defined.

(** X11: a turn request is idempotent: repeating the request just made
    changes nothing, in any state. *)
Theorem turn_request_idempotent rand fuel next g g1 :
  dispatch rand fuel (ClickDirection next) g = Done g1 →
  dispatch rand fuel (ClickDirection next) g1 = Done g1.
Proof.
  rewrite !dispatch_eq. simpl handler. rewrite !changeDirection_eq.
  destruct (isOppositeDirection (directionRef g) next ||
            bool_decide (queuedDirection g = next)) eqn:E.
  - rewrite rendered_same. intros [= <-]. by rewrite E, rendered_same.
  - intros [= <-]. unfold rendered at 2 3. cells.
    rewrite (bool_decide_eq_true_2 (next = next)) by done.
    rewrite orb_true_r. by rewrite rendered_same.
Qed.

Lemma turn_request_idempotent_witness :
  dispatch feedingOracle 1 (ClickDirection UP) (turned UP pausedGame) =
  Done (turned UP pausedGame).
Proof.
  apply (turn_request_idempotent feedingOracle 1 UP pausedGame).
  vm_compute. reflexivity.
Defined.

(** ** Keys *)

(** X12: the space bar is the button, and each letter key is its arrow key
    and its touch button, in every state. *)
Theorem keyboard_aliases rand fuel g :
  dispatch rand fuel (KeyDown "Space") g = dispatch rand fuel ClickPause g ∧
  (∀ code next,
     (code, next) ∈ [("ArrowUp", UP); ("KeyW", UP); ("ArrowDown", DOWN);
                     ("KeyS", DOWN); ("ArrowLeft", LEFT); ("KeyA", LEFT);
                     ("ArrowRight", RIGHT); ("KeyD", RIGHT)]%string →
     dispatch rand fuel (KeyDown code) g =
     dispatch rand fuel (ClickDirection next) g).
Proof.
  split.
  - rewrite dispatch_KeyDown.
    replace (keyMap !! "Space"%string) with (@None Direction)
      by (vm_compute; reflexivity).
    by rewrite bool_decide_eq_true_2.
  - intros code next Hin. rewrite dispatch_KeyDown.
    assert (keyMap !! code = Some next) as ->; [|done].
    repeat (apply elem_of_cons in Hin as [[= -> ->]|Hin];
            [vm_compute; reflexivity|]).
    by apply elem_of_nil in Hin.
Qed.

Lemma keyboard_aliases_witness :
  dispatch feedingOracle 1 (KeyDown "KeyA") startedGame =
  dispatch feedingOracle 1 (ClickDirection LEFT) startedGame.
Proof.
  apply (proj2 (keyboard_aliases feedingOracle 1 startedGame) "KeyA"%string LEFT).
  apply (bool_decide_unpack _). vm_compute. exact I.
Defined.

(** X13: a key that fails the test of line 202 - its code is none of the
    eight keys of the key map and no name inherited from Object.prototype -
    and is not the space bar changes nothing, in any state. *)
Theorem other_keys_are_ignored rand fuel code g :
  keyIn code = false → code ≠ "Space"%string →
  dispatch rand fuel (KeyDown code) g = Done g.
Proof.
  intros [Hown _]%orb_false_iff Hs. apply bool_decide_eq_false in Hown.
  rewrite dispatch_KeyDown. destruct (keyMap !! code) as [next|] eqn:Ek.
  - destruct Hown. by exists next.
  - by rewrite bool_decide_eq_false_2.
Qed.

Lemma other_keys_are_ignored_witness :
  dispatch feedingOracle 1 (KeyDown "Enter") coiledGame = Done coiledGame.
Proof.
  apply (other_keys_are_ignored feedingOracle 1 "Enter" coiledGame).
  - vm_compute. reflexivity.
  - discriminate.
Defined.

(** ** What events can and cannot do in a run *)



(** X15: while the game is not running no interval can fire, and an event
    either sets it running or leaves snake, food, score, speed level, game
    state and high score as they are, with no interval scheduled. *)
Theorem frozen_unless_running rand fuel e g g' :
  reachable rand g → gameState g ≠ running → enabled e g →
  dispatch rand fuel e g = Done g' →
  (∀ iv, e ≠ IntervalFires iv) ∧
  (gameState g' = running ∨
   (snake g' = snake g ∧ food g' = food g ∧ score g' = score g ∧
    speedLevel g' = speedLevel g ∧ gameState g' = gameState g ∧
    highScore g' = highScore g ∧ loopRef g' = None)).
Proof.
  intros Hr Hnr Hen Hd. destruct (reachable_Settled_Shape rand g Hr) as [HS _].
  pose proof (st_loopRef g HS) as Hl.
  rewrite bool_decide_eq_false_2 in Hl by done.
  split.
  - intros iv ->. simpl in Hen. congruence.
  - destruct (reachable_Step rand fuel e g g' Hr Hen Hd);
      unfold turned, halted, resumed, started, afterReset; cells;
      try congruence; auto 10.
Qed.

Lemma frozen_unless_running_witness :
  (∀ iv, ClickDirection UP ≠ IntervalFires iv) ∧
  (gameState (turned UP pausedGame) = running ∨
   (snake (turned UP pausedGame) = snake pausedGame ∧
    food (turned UP pausedGame) = food pausedGame ∧
    score (turned UP pausedGame) = score pausedGame ∧
    speedLevel (turned UP pausedGame) = speedLevel pausedGame ∧
    gameState (turned UP pausedGame) = gameState pausedGame ∧
    highScore (turned UP pausedGame) = highScore pausedGame ∧
    loopRef (turned UP pausedGame) = None)).
Proof.
  apply (frozen_unless_running feedingOracle 1 (ClickDirection UP) pausedGame).
  - apply pausedGame_reachable.
  - discriminate.
  - exact I.
  - vm_compute. reflexivity.
Defined.

(** X16: within a game the snake never shrinks and the score never drops;
    the only event that does either is a start, which leaves the initial
    snake and score 0. *)
Theorem only_a_start_resets rand fuel e g g' :
  reachable rand g → enabled e g → dispatch rand fuel e g = Done g' →
  (gameState g ≠ running ∧ gameState g ≠ paused ∧ gameState g' = running ∧
   snake g' = INITIAL_SNAKE ∧ score g' = 0 ∧ speedLevel g' = 0) ∨
  ((length (snake g) ≤ length (snake g'))%nat ∧ score g ≤ score g' ∧
   speedLevel g ≤ speedLevel g').
Proof.
  intros Hr Hen Hd. destruct (reachable_Settled_Shape rand g Hr) as [_ HSh].
  destruct (reachable_Step rand fuel e g g' Hr Hen Hd)
    as [ | | | |e fd k Hgs Hf|iv hd tl Hrun Es Hc
       |iv hd tl fd k Hrun Es Hc Ha Hf|iv hd tl Hrun Es Hc Ha];
    unfold turned, halted, resumed, started, afterReset, fed, moved; cells;
    try (right; split_and!; (done || lia)).
  - left. destruct Hgs as [-> | ->]; by split_and!.
  - right. split_and!; [cbn [length]; lia|lia|].
    pose proof (sh_level g HSh). lia.
  - right. split_and!; [|done..].
    by rewrite Es, <-removelast_cons, removelast_length_cons by done.
Qed.

Lemma only_a_start_resets_witness :
  (gameState wallGame ≠ running ∧ gameState wallGame ≠ paused ∧
   gameState (halted over wallGame) = running ∧
   snake (halted over wallGame) = INITIAL_SNAKE ∧
   score (halted over wallGame) = 0 ∧ speedLevel (halted over wallGame) = 0) ∨
  ((length (snake wallGame) ≤ length (snake (halted over wallGame)))%nat ∧
   score wallGame ≤ score (halted over wallGame) ∧
   speedLevel wallGame ≤ speedLevel (halted over wallGame)).
Proof.
  apply (only_a_start_resets openFieldOracle 1
           (IntervalFires (mkInterval 160 (mkCoordinate 0 0))) wallGame).
  - apply wallGame_reachable.
  - reflexivity.
  - vm_compute. reflexivity.
Defined.

(** X17: the game ends only by collision: a game that was not over is over
    after an event only if the event is a tick whose next head, one step
    from the head in the pending direction, is off the board or on the
    snake. *)
Theorem game_ends_only_by_collision rand fuel e g g' :
  reachable rand g → enabled e g → dispatch rand fuel e g = Done g' →
  gameState g ≠ over → gameState g' = over →
  ∃ iv hd tl, e = IntervalFires iv ∧ snake g = hd :: tl ∧
              (¬ inBoard (getNextHead hd (queuedDirection g)) ∨
               getNextHead hd (queuedDirection g) ∈ snake g).
Proof.
  intros Hr Hen Hd Hno Hov.
  destruct (reachable_Step rand fuel e g g' Hr Hen Hd)
    as [ | | | |e fd k Hgs Hf|iv hd tl Hrun Es Hc
       |iv hd tl fd k Hrun Es Hc Ha Hf|iv hd tl Hrun Es Hc Ha];
    unfold turned, halted, resumed, started, afterReset, fed, moved in Hov;
    cells; try congruence.
  exists iv, hd, tl. split_and!; [done..|]. by apply collision_true.
Qed.

Lemma game_ends_only_by_collision_witness :
  ∃ iv hd tl,
    IntervalFires (mkInterval 160 (mkCoordinate 0 0)) = IntervalFires iv ∧
    snake wallGame = hd :: tl ∧
    (¬ inBoard (getNextHead hd (queuedDirection wallGame)) ∨
     getNextHead hd (queuedDirection wallGame) ∈ snake wallGame).
Proof.
  apply (game_ends_only_by_collision openFieldOracle 1 _ wallGame
           (halted over wallGame)).
  - apply wallGame_reachable.
  - reflexivity.
  - vm_compute. reflexivity.
  - discriminate.
  - reflexivity.
Defined.

(** X18: after a meal the food is on a different cell, on the board and off
    the snake, and the interval has been rescheduled: its callback sees the
    new food and its delay is 6 ms shorter, unless the speed level was
    already 12. *)
Theorem meal_reschedules_the_interval rand fuel iv g g' :
  reachable rand g → loopRef g = Some iv →
  dispatch rand fuel (IntervalFires iv) g = Done g' →
  length (snake g') = S (length (snake g)) →
  food g' ≠ food g ∧ inBoard (food g') ∧ (food g' ∉ snake g') ∧
  loopRef g' = Some (mkInterval (tickRate (speedLevel g')) (food g')) ∧
  tickRate (speedLevel g') =
    (if bool_decide (speedLevel g < 12) then delay iv - 6 else delay iv).
Proof.
  intros Hr Hl Hd Hlen.
  destruct (reachable_Settled_Shape rand g Hr) as [_ HSh].
  pose proof (reachable_Inv rand g Hr) as HI.
  destruct (inv_loop g HI iv Hl) as (_ & Hdelay & _).
  pose proof (inv_speed g HI) as Hsp.
  destruct (reachable_Step rand fuel (IntervalFires iv) g g' Hr Hl Hd)
    as [ | | | |e fd k Hgs Hf|iv' hd tl Hrun Es Hc
       |iv' hd tl fd k Hrun Es Hc Ha Hf|iv' hd tl Hrun Es Hc Ha];
    unfold turned, halted, resumed, started, afterReset, fed, moved in *;
    cells; try lia.
  - pose proof (sh_length g HSh). simpl in Hlen. lia.
  - apply randomFoodPosition_sound in Hf as [Hfree Hin].
    split_and!; [|done|done|done|].
    + intros ->. apply Hfree. rewrite Ha. left.
    + rewrite Hdelay. unfold tickRate, TICK_BASE, SPEED_STEP.
      goal_decide; lia.
  - exfalso.
    rewrite Es, <-removelast_cons, removelast_length_cons in Hlen by done. lia.
Qed.

Lemma meal_reschedules_the_interval_witness :
  food (fed (mkCoordinate 10 10) (mkCoordinate 5 5) 6 startedGame) ≠ food startedGame ∧
  inBoard (food (fed (mkCoordinate 10 10) (mkCoordinate 5 5) 6 startedGame)) ∧
  (food (fed (mkCoordinate 10 10) (mkCoordinate 5 5) 6 startedGame)
     ∉ snake (fed (mkCoordinate 10 10) (mkCoordinate 5 5) 6 startedGame)) ∧
  loopRef (fed (mkCoordinate 10 10) (mkCoordinate 5 5) 6 startedGame) =
    Some (mkInterval
            (tickRate (speedLevel (fed (mkCoordinate 10 10) (mkCoordinate 5 5) 6 startedGame)))
            (food (fed (mkCoordinate 10 10) (mkCoordinate 5 5) 6 startedGame))) ∧
  tickRate (speedLevel (fed (mkCoordinate 10 10) (mkCoordinate 5 5) 6 startedGame)) =
    (if bool_decide (speedLevel startedGame < 12)
     then delay (mkInterval 160 (mkCoordinate 10 10)) - 6
     else delay (mkInterval 160 (mkCoordinate 10 10))).
Proof.
  apply (meal_reschedules_the_interval feedingOracle 1
           (mkInterval 160 (mkCoordinate 10 10)) startedGame).
  - apply startedGame_reachable.
  - reflexivity.
  - vm_compute. reflexivity.
  - reflexivity.
Defined.

(** ** Food placement and the set of keys *)

(** X19: the set of keys stands for the forbidden cells exactly: the key of
    a cell is in it if and only if the cell is forbidden, and two cells have
    the same key only if they are the same cell, negative coordinates
    included. *)
Theorem keys_stand_for_cells a b a' b' forbidden :
  (cellKey a b ∈ takenKeys forbidden ↔ mkCoordinate a b ∈ forbidden) ∧
  (cellKey a b = cellKey a' b' ↔ a = a' ∧ b = b').
Proof.
  split; [apply takenKeys_elem|]. split; [apply cellKey_inj|].
  by intros [-> ->].
Qed.

(** X20: food placement depends on the forbidden cells only as a set:
    order and repetitions in the list make no difference. *)
Theorem placement_ignores_order_and_repeats rand fuel forbidden forbidden' k :
  (∀ c, c ∈ forbidden ↔ c ∈ forbidden') →
  randomFoodPosition rand fuel forbidden k =
  randomFoodPosition rand fuel forbidden' k.
Proof.
  intros Hsame. unfold randomFoodPosition. f_equal.
  apply set_eq. intros key. unfold takenKeys.
  rewrite !elem_of_list_to_set, !list_elem_of_fmap.
  split; intros (c & -> & Hc); exists c; (split; [done|by apply Hsame]).
Qed.

Lemma placement_ignores_order_and_repeats_witness :
  randomFoodPosition feedingOracle 1 INITIAL_SNAKE 0 =
  randomFoodPosition feedingOracle 1 (reverse INITIAL_SNAKE ++ INITIAL_SNAKE) 0.
Proof.
  apply (placement_ignores_order_and_repeats feedingOracle 1 INITIAL_SNAKE).
  intros c. rewrite elem_of_app, elem_of_reverse. tauto.
Defined.

(** ** Mount *)

(** X21: mounted on a storage that holds nothing or the numeral of a safe
    integer, the component is idle, with no interval, the initial snake
    heading RIGHT, score and speed level 0 and the food off the snake.  The
    high score is the persisted value, or 0 when nothing is persisted, a
    safe integer again; a negative persisted value is replaced by 0, in the
    storage too. *)
Theorem mount_state rand fuel stored g :
  numeral stored → mount rand fuel stored = Done g →
  gameState g = idle ∧ loopRef g = None ∧ snake g = INITIAL_SNAKE ∧
  queuedDirection g = RIGHT ∧ score g = 0 ∧ speedLevel g = 0 ∧
  (food g ∉ INITIAL_SNAKE) ∧
  highScore g = Z.max 0 (default 0 stored) ∧ highScore g < 2 ^ 53 ∧
  storedHighScore g =
    (if bool_decide (default 0 stored < 0) then Some 0 else stored).
Proof.
  intros Hn Hm. destruct (mount_highScore rand fuel stored g Hm) as [Hhs Hst].
  assert (highScore g < 2 ^ 53) as Hsafe.
  { rewrite Hhs. destruct stored as [v|]; cbn [default numeral] in *;
      unfold id, safeInteger in *; lia. }
  clear Hn.
  revert Hm. unfold mount.
  destruct (randomFoodPosition rand fuel INITIAL_SNAKE 0) as [[fd k]|] eqn:Ef;
    [|done].
  rewrite effects_eq. intros [= <-].
  apply randomFoodPosition_sound in Ef as [Hfree _].
  revert Hhs Hsafe Hst. unfold rendered. cells. cbn [orb andb].
  intros Hhs Hsafe Hst. by split_and!.
Qed.

Lemma mount_state_witness :
  gameState (set_storedHighScore (Some 0) mountedGame) = idle ∧
  loopRef (set_storedHighScore (Some 0) mountedGame) = None ∧
  snake (set_storedHighScore (Some 0) mountedGame) = INITIAL_SNAKE ∧
  queuedDirection (set_storedHighScore (Some 0) mountedGame) = RIGHT ∧
  score (set_storedHighScore (Some 0) mountedGame) = 0 ∧
  speedLevel (set_storedHighScore (Some 0) mountedGame) = 0 ∧
  (food (set_storedHighScore (Some 0) mountedGame) ∉ INITIAL_SNAKE) ∧
  highScore (set_storedHighScore (Some 0) mountedGame) =
    Z.max 0 (default 0 (Some (-7))) ∧
  highScore (set_storedHighScore (Some 0) mountedGame) < 2 ^ 53 ∧
  storedHighScore (set_storedHighScore (Some 0) mountedGame) =
    (if bool_decide (default 0 (Some (-7)) < 0) then Some 0 else Some (-7)).
Proof.
  apply (mount_state feedingOracle 1 (Some (-7))
           (set_storedHighScore (Some 0) mountedGame)).
  - unfold numeral, safeInteger. lia.
  - vm_compute. reflexivity.
Defined.

(** ** The page *)

Lemma app_assoc_string s1 s2 s3 : (s1 +:+ s2) +:+ s3 = s1 +:+ s2 +:+ s3.
Proof. induction s1 as [|c s1 IH]; [done|]. push_app. by rewrite IH. Qed.

(** What follows the last dash is unambiguous. *)
Lemma dash_suffix s1 s2 t1 t2 :
  dashFree t1 → dashFree t2 →
  s1 +:+ "-" +:+ t1 = s2 +:+ "-" +:+ t2 → t1 = t2.
Proof.
  intros H1 H2. revert s2. induction s1 as [|c s1 IH]; intros [|d s2]; push_app.
  - by intros [= ->].
  - intros [= <- E]. by destruct (H1 s2 t2).
  - intros [= -> E]. by destruct (H2 s1 t1).
  - intros [= -> E]. by apply (IH s2).
Qed.

Lemma snakeTile_key i seg :
  tileKey (snakeTile i seg) =
  Some (("snake-" +:+ pretty (x seg) +:+ "-" +:+ pretty (y seg))
          +:+ "-" +:+ pretty i).
Proof. unfold snakeTile. cbn [tileKey]. f_equal. by rewrite !app_assoc_string. Qed.

Lemma snakeTile_key_index i j seg seg' :
  tileKey (snakeTile i seg) = tileKey (snakeTile j seg') → i = j.
Proof.
  rewrite !snakeTile_key. intros [= E].
  apply dash_suffix in E; [|apply (pretty_N_dashFree (N.of_nat _))..].
  revert E. apply (inj (pretty (A:=nat))).
Qed.

(** X22: the React keys of the snake's tiles are pairwise distinct, for
    every snake, overlapping segments included. *)
Theorem snake_tile_keys_distinct (l : list Coordinate) :
  NoDup (tileKey <$> snakeTiles l).
Proof.
  apply NoDup_alt. intros i j key. unfold snakeTiles.
  rewrite !list_lookup_fmap, !list_lookup_imap.
  destruct (l !! i) as [seg|], (l !! j) as [seg'|];
    cbn -[snakeTile tileKey]; try done.
  intros H1 H2. apply (snakeTile_key_index i j seg seg'). congruence.
Qed.

(** X23: there is one tile per segment, in order; the tile of a segment at
    (x, y) is offset by 5x and 5y percent, and only the first tile has the
    head's class.  In a run all tiles, the food's too, are offset by 0 to
    95 percent. *)
Theorem tiles_follow_the_snake rand g :
  reachable rand g →
  length (snakeTiles (snake g)) = length (snake g) ∧
  (∀ i seg, snake g !! i = Some seg →
     ∃ t, snakeTiles (snake g) !! i = Some t ∧
          translateX t = 5 * x seg ∧ translateY t = 5 * y seg ∧
          (className t = "tile snake-head"%string ↔ i = 0%nat) ∧
          (className t = "tile snake-segment"%string ↔ i ≠ 0%nat)) ∧
  Forall (λ t, 0 ≤ translateX t ≤ 95 ∧ 0 ≤ translateY t ≤ 95)
         (foodTile (food g) :: snakeTiles (snake g)).
Proof.
  intros Hr. destruct (reachable_Settled_Shape rand g Hr) as [_ HSh].
  pose proof (reachable_Inv rand g Hr) as HI.
  assert (∀ v, (v * 100) `div` BOARD_SIZE = 5 * v) as Hdiv.
  { intros v. unfold BOARD_SIZE.
    replace (v * 100) with (5 * v * 20) by lia. by apply Z.div_mul. }
  unfold snakeTiles. split_and!.
  - apply length_imap.
  - intros i seg Hi. exists (snakeTile i seg).
    rewrite list_lookup_imap, Hi. unfold snakeTile. cbn.
    rewrite !Hdiv. split_and!; try done.
    + destruct i; simpl; split; (done || discriminate).
    + destruct i; simpl; split; (done || discriminate).
  - constructor.
    + destruct (sh_food g HSh) as [Hx Hy]. unfold foodTile.
      cbn [translateX translateY]. rewrite !Hdiv. unfold BOARD_SIZE in *. lia.
    + apply Forall_forall. intros t (i & seg & -> & Hi)%elem_of_lookup_imap.
      assert (inBoard seg) as [Hx Hy].
      { eapply (proj1 (Forall_forall _ _) (inv_board g HI)).
        by eapply list_elem_of_lookup_2. }
      unfold snakeTile. cbn [translateX translateY]. rewrite !Hdiv.
      unfold BOARD_SIZE in *. lia.
Qed.

Lemma tiles_follow_the_snake_witness :
  length (snakeTiles (snake coiledGame)) = length (snake coiledGame) ∧
  (∀ i seg, snake coiledGame !! i = Some seg →
     ∃ t, snakeTiles (snake coiledGame) !! i = Some t ∧
          translateX t = 5 * x seg ∧ translateY t = 5 * y seg ∧
          (className t = "tile snake-head"%string ↔ i = 0%nat) ∧
          (className t = "tile snake-segment"%string ↔ i ≠ 0%nat)) ∧
  Forall (λ t, 0 ≤ translateX t ≤ 95 ∧ 0 ≤ translateY t ≤ 95)
         (foodTile (food coiledGame) :: snakeTiles (snake coiledGame)).
Proof. apply (tiles_follow_the_snake feedingOracle coiledGame), coiledGame_reachable. Defined.

(** X24: in a run the button and the status line tell what is scheduled
    and what a click does: the button reads "Pause" and the status "Game in
    Progress" exactly while an interval is scheduled; a click on "Pause"
    pauses and clears the interval, a click on "Resume" schedules it again
    and changes nothing else, and a click on "Start" that returns leaves
    the initial snake with a freshly drawn food. *)
Theorem button_tells_the_action rand fuel g :
  reachable rand g →
  (buttonLabel (gameState g) = "Pause"%string ↔ is_Some (loopRef g)) ∧
  (statusLabel (gameState g) = "Game in Progress"%string ↔ is_Some (loopRef g)) ∧
  (buttonLabel (gameState g) = "Pause"%string →
   dispatch rand fuel ClickPause g = Done (halted paused g)) ∧
  (buttonLabel (gameState g) = "Resume"%string →
   dispatch rand fuel ClickPause g = Done (resumed g)) ∧
  (buttonLabel (gameState g) = "Start"%string →
   ∀ g', dispatch rand fuel ClickPause g = Done g' →
         ∃ fd k, randomFoodPosition rand fuel INITIAL_SNAKE (draws g) = Some (fd, k) ∧
                 g' = started fd k g).
Proof.
  intros Hr. destruct (reachable_Settled_Shape rand g Hr) as [HS _].
  rewrite (settled_pause rand fuel g HS), (st_loopRef g HS).
  destruct (gameState g) eqn:Egs; cbn; split_and!; try done;
    try (split; [done|by intros [? [=]]]);
    try (split; [by intros [=]|by eexists]).
  all: intros _ g'; destruct (randomFoodPosition _ _ _ _) as [[fd k]|];
    [|done]; intros [= <-]; by exists fd, k.
Qed.

Lemma button_tells_the_action_witness :
  (buttonLabel (gameState pausedGame) = "Pause"%string ↔ is_Some (loopRef pausedGame)) ∧
  (statusLabel (gameState pausedGame) = "Game in Progress"%string ↔
   is_Some (loopRef pausedGame)) ∧
  (buttonLabel (gameState pausedGame) = "Pause"%string →
   dispatch feedingOracle 1 ClickPause pausedGame = Done (halted paused pausedGame)) ∧
  (buttonLabel (gameState pausedGame) = "Resume"%string →
   dispatch feedingOracle 1 ClickPause pausedGame = Done (resumed pausedGame)) ∧
  (buttonLabel (gameState pausedGame) = "Start"%string →
   ∀ g', dispatch feedingOracle 1 ClickPause pausedGame = Done g' →
         ∃ fd k, randomFoodPosition feedingOracle 1 INITIAL_SNAKE (draws pausedGame)
                 = Some (fd, k) ∧
                 g' = started fd k pausedGame).
Proof.
  apply (button_tells_the_action feedingOracle 1 pausedGame), pausedGame_reachable.
Defined.
